(** * web-search-duckduckgo: the search and fetch pipeline of [main.py]

    A shallow embedding of [search_duckduckgo], [fetch_url], [search_and_fetch],
    [search] and [fetch], with the Python built-ins they call on [str], [list]
    and [dict] values, and the properties of that code. *)

From Stdlib Require Import ZArith Ascii String DecimalString.
From stdpp Require Import base list strings gmap.

Local Open Scope Z_scope.

(** ** Python [str] values

    A Python [str] is a sequence of Unicode code points; [len], slicing,
    [strip], [splitlines] and [split] all work on code points. *)

Module PyStr.

Definition char : Type := N.
Definition str : Type := list char.

(** A literal of the source, read as its code points (all literals of
    [main.py] are ASCII). *)
Definition txt (s : string) : str := map N_of_ascii (list_ascii_of_string s).
Global Arguments txt : simpl never.

Definition len {A} (l : list A) : Z := Z.of_nat (length l).

(** [l[:n]]: a negative bound counts from the end, and a bound past either
    end is clipped. *)
Definition slice_to {A} (n : Z) (l : list A) : list A :=
  if 0 <=? n then take (Z.to_nat n) l else take (Z.to_nat (len l + n)) l.

(** The characters [str.strip()] removes: those for which
    [str.isspace()] holds. *)
Definition isspace (c : char) : bool :=
  ((9 <=? c) && (c <=? 13) || (28 <=? c) && (c <=? 32) || (c =? 133)
   || (c =? 160) || (c =? 5760) || (8192 <=? c) && (c <=? 8202)
   || (c =? 8232) || (c =? 8233) || (c =? 8239) || (c =? 8287)
   || (c =? 12288))%N.

(** The line boundaries of [str.splitlines()]. *)
Definition is_linebreak (c : char) : bool :=
  ((10 <=? c) && (c <=? 13) || (28 <=? c) && (c <=? 30) || (c =? 133)
   || (c =? 8232) || (c =? 8233))%N.

Definition SPACE : char := 32%N.
Definition CR : char := 13%N.
Definition LF : char := 10%N.

Fixpoint lstrip (s : str) : str :=
  match s with
  | [] => []
  | c :: s' => if isspace c then lstrip s' else s
  end.

Definition rstrip (s : str) : str := reverse (lstrip (reverse s)).

Definition strip (s : str) : str := rstrip (lstrip s).

(** [s.splitlines()]: [cur] is the line being read. A carriage return
    directly followed by a line feed is one boundary, and a boundary at the
    very end opens no further line. *)
Fixpoint splitlines_from (cur s : str) : list str :=
  match s with
  | [] => match cur with [] => [] | _ => [cur] end
  | c :: s' =>
      if is_linebreak c then
        cur :: match s' with
               | c' :: s'' =>
                   if (c =? CR)%N && (c' =? LF)%N
                   then splitlines_from [] s''
                   else splitlines_from [] s'
               | [] => []
               end
      else splitlines_from (cur ++ [c]) s'
  end.

Definition splitlines (s : str) : list str := splitlines_from [] s.

(** [s.split("  ")]: the separator of two spaces is searched from the left,
    matches do not overlap, and the pieces between them are returned (the
    empty string gives one empty piece). *)
Fixpoint split_from (cur s : str) : list str :=
  match s with
  | [] => [cur]
  | c :: s' =>
      match s' with
      | c' :: s'' =>
          if (c =? SPACE)%N && (c' =? SPACE)%N
          then cur :: split_from [] s''
          else split_from (cur ++ [c]) s'
      | [] => [cur ++ [c]]
      end
  end.

Definition split_double_space (s : str) : list str := split_from [] s.

(** [sep.join(parts)]. *)
Fixpoint join (sep : str) (parts : list str) : str :=
  match parts with
  | [] => []
  | [p] => p
  | p :: rest => p ++ sep ++ join sep rest
  end.

(** [s.replace(" ", "+")]: the pattern is one character long. *)
Definition replace_space_plus (s : str) : str :=
  map (fun c => if (c =? SPACE)%N then 43%N else c) s.

Fixpoint startswith (s p : str) : bool :=
  match p, s with
  | [], _ => true
  | _ :: _, [] => false
  | a :: p', b :: s' => (a =? b)%N && startswith s' p'
  end.

(** [str(n)] of an [int], as an f-string renders it. *)
Definition str_of_int (n : Z) : str := txt (NilZero.string_of_int (Z.to_int n)).

End PyStr.

Import PyStr.

(** ** The outside world: HTTP and the HTML parser *)

(** What the code reads of an [httpx.Response]. *)
Record response : Type := Response {
  status_code : Z;
  reason_phrase : str;
  text : str
}.

(** The exceptions the [try] blocks of [main.py] tell apart. [Exception d]
    stands for any exception that is neither of the two [httpx] ones, and
    [d] for its [str(e)]. *)
Inductive exception : Type :=
| TimeoutException
| HTTPStatusError (r : response)
| Exception (description : str).

(** The exceptions that [main.py] lets reach its caller. *)
Inductive error : Type :=
| ValueError (msg : string)
| KeyError (key : string).

(** The arguments of [client.get(url, headers=headers, timeout=timeout)], with
    the [follow_redirects] setting of the client that sends it; the timeout is
    in seconds. *)
Record request : Type := Request {
  req_url : str;
  req_headers : list (string * string);
  req_timeout : Z;
  req_follow_redirects : bool
}.

(** One [.result__body] element of the results page, seen through the three
    [select_one] calls of the loop: [None] when the element is missing,
    otherwise the [get_text()] of the element found. *)
Record fragment : Type := Fragment {
  title_elem : option str;
  url_elem : option str;
  snippet_elem : option str
}.

(** The libraries [main.py] calls and does not define.
    - [select_result_body body]: [BeautifulSoup(body, "html.parser")] followed
      by [soup.select('.result__body')], in document order;
    - [main_content_text body]: [BeautifulSoup(body, "html.parser")], the
      removal of the script, style, nav, header, footer and aside elements,
      and the [get_text()] of the main content region, or of the whole
      document when there is none;
    - [HTTPStatusError_str r]: the [str(e)] of the error that
      [raise_for_status] raises for [r].
    The two parsers answer [inl d] when they raise an exception whose
    [str(e)] is [d]. *)
Class Libraries : Type := {
  select_result_body : str -> str + list fragment;
  main_content_text : str -> str + str;
  HTTPStatusError_str : response -> str
}.

(** ** Programs that talk to the network

    A coroutine of [main.py] either returns, raises, or awaits one
    [client.get] and goes on with its outcome. *)

Inductive io (A : Type) : Type :=
| Ret (a : A)
| Raise (e : error)
| Get (rq : request) (k : exception + response -> io A).

Arguments Ret {A} a.
Arguments Raise {A} e.
Arguments Get {A} rq k.

Fixpoint bind {A B} (m : io A) (f : A -> io B) : io B :=
  match m with
  | Ret a => f a
  | Raise e => Raise e
  | Get rq k => Get rq (fun out => bind (k out) f)
  end.

Notation "'await' x <- m ; f" := (bind m (fun x => f))
  (at level 10, x name, m at level 100, f at level 200,
   format "'[v' 'await'  x  <-  m ; '/' f ']'").

(** [await asyncio.gather] over the tasks: every task is run and the results
    come back in the order of the tasks. The tasks are run here one after the
    other; they share no state, so the interleaving of their requests is not
    observable in the results. *)
Fixpoint gather {A} (tasks : list (io A)) : io (list A) :=
  match tasks with
  | [] => Ret []
  | t :: rest => await a <- t; await r <- gather rest; Ret (a :: r)
  end.

(** What a call came to, and the requests it sent, oldest first. *)
Inductive result (A : Type) : Type :=
| Returned (a : A)
| Raised (e : error).

Arguments Returned {A} a.
Arguments Raised {A} e.

Fixpoint run {A} (net : request -> exception + response) (m : io A)
  : result A * list request :=
  match m with
  | Ret a => (Returned a, [])
  | Raise e => (Raised e, [])
  | Get rq k => let '(r, sent) := run net (k (net rq)) in (r, rq :: sent)
  end.

(** ** Values of the tool arguments

    The tool functions check their arguments with [isinstance]; [bool] is a
    subclass of [int] in Python, and [VOther] is any object that is neither a
    [str] nor an [int]. *)
Inductive pyval : Type :=
| VStr (s : str)
| VInt (n : Z)
| VBool (b : bool)
| VOther.

(** [isinstance(v, int)], with the integer [v] is. *)
Definition as_int (v : pyval) : option Z :=
  match v with
  | VInt n => Some n
  | VBool b => Some (if b then 1 else 0)
  | _ => None
  end.

(** [isinstance(v, str)], with the string [v] is. *)
Definition as_str (v : pyval) : option str :=
  match v with
  | VStr s => Some s
  | _ => None
  end.

(** ** [main.py] *)

Definition USER_AGENT : string := "search-app/1.0".
Definition DUCKDUCKGO_URL : str := txt "https://html.duckduckgo.com/html/".

(** The body of the [for] loop of [search_duckduckgo]: [results] is the
    list built so far, [result] the element visited. *)
Definition visit_result (results : list (gmap string str)) (result : fragment)
  : list (gmap string str) :=
  match title_elem result, url_elem result with
  | Some title, Some url =>
      let result_dict : gmap string str :=
        <["snippet" := match snippet_elem result with
                       | Some snippet => strip snippet
                       | None => []
                       end]>
        (<["url" := strip url]> (<["title" := strip title]> ∅)) in
      results ++ [result_dict]
  | _, _ => results
  end.

(** Lines 37 to 51: the loop over [result_elements[:limit]]. *)
Definition extract_results (result_elements : list fragment) (limit : Z)
  : list (gmap string str) :=
  foldl visit_result [] (slice_to limit result_elements).

Definition raise_for_status (r : response) : exception + unit :=
  if (200 <=? status_code r) && (status_code r <=? 299) then inr tt
  else inl (HTTPStatusError r).

(** The cleaning of the extracted text, lines 99 to 101. *)
Definition clean_up (text : str) : str :=
  let lines := strip <$> splitlines text in
  let chunks := lines ≫= (fun line => strip <$> split_double_space line) in
  join (txt " ") (filter (fun chunk => chunk ≠ []) chunks).

(** The length limit, lines 104 and 105. *)
Definition limit_length (text : str) : str :=
  if 10000 <? len text
  then slice_to 10000 text ++ txt "... [content truncated]"
  else text.

(** The url the request goes to, lines 64 and 65. *)
Definition with_scheme (url : str) : str :=
  if negb (startswith url (txt "http://") || startswith url (txt "https://"))
  then txt "https://" ++ url
  else url.

Definition fetch_headers : list (string * string) :=
  [("User-Agent", "Mozilla/5.0 (Windows NT 10.0; Win64; x64) AppleWebKit/537.36 (KHTML, like Gecko) Chrome/91.0.4472.124 Safari/537.36");
   ("Accept", "text/html,application/xhtml+xml,application/xml;q=0.9,image/webp,*/*;q=0.8");
   ("Accept-Language", "en-US,en;q=0.5");
   ("Accept-Encoding", "gzip, deflate");
   ("Connection", "keep-alive");
   ("Upgrade-Insecure-Requests", "1")]%string.

Section Main.
Context `{Libraries}.

(** The [try] block of [search_duckduckgo] from the answer to its request
    on: what it returns, or the exception that leaves it. *)
Definition search_try (limit : Z) (got : exception + response)
  : exception + list (gmap string str) :=
  match got with
  | inl e => inl e
  | inr r =>
      match raise_for_status r with
      | inl e => inl e
      | inr _ =>
          match select_result_body (text r) with
          | inl d => inl (Exception d)
          | inr result_elements => inr (extract_results result_elements limit)
          end
      end
  end.

(** The [except] clauses of [search_duckduckgo]. *)
Definition search_except (e : exception) : list (gmap string str) :=
  match e with
  | TimeoutException => [ {["error" := txt "Request timed out"]} ]
  | HTTPStatusError r =>
      [ {["error" := txt "Search failed: " ++ HTTPStatusError_str r]} ]
  | Exception d => [ {["error" := txt "Search failed: " ++ d]} ]
  end.

Definition search_duckduckgo (query : str) (limit : Z)
  : io (list (gmap string str)) :=
  let formatted_query := replace_space_plus query in
  let url := DUCKDUCKGO_URL ++ txt "?q=" ++ formatted_query in
  let headers := [("User-Agent", USER_AGENT);
                  ("Content-Type", "application/json")]%string in
  Get (Request url headers 30 false)
      (fun got =>
         match search_try limit got with
         | inr results => Ret results
         | inl e => Ret (search_except e)
         end).

(** The [try] block of [fetch_url] from the answer to its request on. *)
Definition fetch_try (got : exception + response) : exception + str :=
  match got with
  | inl e => inl e
  | inr r =>
      match raise_for_status r with
      | inl e => inl e
      | inr _ =>
          match main_content_text (text r) with
          | inl d => inl (Exception d)
          | inr text => inr (limit_length (clean_up text))
          end
      end
  end.

(** The [except] clauses of [fetch_url]. *)
Definition fetch_except (e : exception) : str :=
  match e with
  | TimeoutException =>
      txt "Error: Request timed out while fetching the webpage"
  | HTTPStatusError r =>
      txt "Error: HTTP " ++ str_of_int (status_code r) ++ txt " - "
        ++ reason_phrase r
  | Exception d => txt "Error: Failed to fetch webpage - " ++ d
  end.

(** The [print] of line 79 writes to the standard output only and is left
    out. *)
Definition fetch_url (url : str) : io str :=
  let timeout := 15 in
  let url := with_scheme url in
  Get (Request url fetch_headers timeout true)
      (fun got =>
         match fetch_try got with
         | inr text => Ret text
         | inl e => Ret (fetch_except e)
         end).

(** The list comprehension of line 147: [item["url"]] is looked up for every
    item, and the first item without that key raises [KeyError] before any
    of the coroutines is run. *)
Fixpoint fetch_tasks_of (results : list (gmap string str))
  : error + list (io str) :=
  match results with
  | [] => inr []
  | item :: rest =>
      match item !! "url" with
      | None => inl (KeyError "url")
      | Some url =>
          match fetch_tasks_of rest with
          | inl e => inl e
          | inr tasks => inr (fetch_url url :: tasks)
          end
      end
  end.

(** The loop of lines 153 and 154: [zip] stops at the shorter list, and the
    items past it stay as they are. *)
Fixpoint assign_summaries (results : list (gmap string str))
    (summaries : list str) : list (gmap string str) :=
  match results, summaries with
  | item :: results', summary :: summaries' =>
      <["summary" := summary]> item :: assign_summaries results' summaries'
  | _, _ => results
  end.

(** Lines 132 to 139, shared by [search_and_fetch] and [search]: the two
    checks, then the cap on the limit. *)
Definition checked_arguments (query limit : pyval) : error + str * Z :=
  match as_str query with
  | None => inl (ValueError "Query must be a non-empty string")
  | Some q =>
      match strip q with
      | [] => inl (ValueError "Query must be a non-empty string")
      | _ :: _ =>
          match as_int limit with
          | None => inl (ValueError "Limit must be a positive integer")
          | Some n =>
              if n <? 1
              then inl (ValueError "Limit must be a positive integer")
              else inr (q, Z.min n 10)
          end
      end
  end.

Definition no_results (query : str) : list (gmap string str) :=
  [ {["message" := txt "No results found for '" ++ query ++ txt "'"]} ].

(** Lines 143 to 156: what [search_and_fetch] does with the results of the
    search. *)
Definition fetch_summaries (query : str) (results : list (gmap string str))
  : io (list (gmap string str)) :=
  match results with
  | [] => Ret (no_results query)
  | _ :: _ =>
      match fetch_tasks_of results with
      | inl e => Raise e
      | inr fetch_tasks =>
          await summaries <- gather fetch_tasks;
          Ret (assign_summaries results summaries)
      end
  end.

Definition search_and_fetch (query limit : pyval)
  : io (list (gmap string str)) :=
  match checked_arguments query limit with
  | inl e => Raise e
  | inr (query, limit) =>
      await results <- search_duckduckgo query limit;
      fetch_summaries query results
  end.

Definition search (query limit : pyval) : io (list (gmap string str)) :=
  match checked_arguments query limit with
  | inl e => Raise e
  | inr (query, limit) =>
      await results <- search_duckduckgo query limit;
      match results with
      | [] => Ret (no_results query)
      | _ :: _ => Ret results
      end
  end.


End Main.

(** The request [search_duckduckgo] sends for [query]. *)
Definition search_request (query : str) : request :=
  Request (DUCKDUCKGO_URL ++ txt "?q=" ++ replace_space_plus query)
          [("User-Agent", USER_AGENT); ("Content-Type", "application/json")]%string
          30 false.

(** The request [fetch_url] sends for [url]. *)
Definition fetch_request (url : str) : request :=
  Request (with_scheme url) fetch_headers 15 true.

(** A stand-in for the libraries in examples: every results page parses to
    [page], a fetched body is plain text without markup, so that its text is
    the body itself, and a status error prints as [status error]. *)
Definition fixture (page : list fragment) : Libraries := {|
  select_result_body := fun _ => inr page;
  main_content_text := fun body => inr body;
  HTTPStatusError_str := fun _ => txt "status error"
|}.

(** * Properties *)

(** ** Facts about the [str] built-ins *)

Module PyStrFacts.

(** No white space at either end. *)
Definition stripped (s : str) : Prop :=
  (∀ c, head s = Some c → isspace c = false)
  ∧ (∀ c, last s = Some c → isspace c = false).

(** No line boundary anywhere. *)
Definition one_line (s : str) : Prop := Forall (fun c => is_linebreak c = false) s.

(** No two spaces in a row. *)
Fixpoint spaced_once (s : str) : bool :=
  match s with
  | c :: s' =>
      match s' with
      | c' :: _ => negb ((c =? SPACE)%N && (c' =? SPACE)%N) && spaced_once s'
      | [] => true
      end
  | [] => true
  end.

Definition both_space (a b : option char) : bool :=
  match a, b with
  | Some x, Some y => (x =? SPACE)%N && (y =? SPACE)%N
  | _, _ => false
  end.

Lemma len_nonneg {A} (l : list A) : 0 <= len l.
Proof. unfold len. lia. Qed.

Lemma len_app {A} (l1 l2 : list A) : len (l1 ++ l2) = len l1 + len l2.
Proof. unfold len. rewrite length_app. lia. Qed.

Lemma slice_to_nonneg {A} (n : Z) (l : list A) :
  0 <= n → slice_to n l = take (Z.to_nat n) l.
Proof. intros Hn. unfold slice_to. destruct (Z.leb_spec 0 n); [done | lia]. Qed.

Lemma slice_to_length {A} (n : Z) (l : list A) :
  0 <= n → len (slice_to n l) = Z.min n (len l).
Proof.
  intros Hn. rewrite slice_to_nonneg by done.
  unfold len. rewrite length_take. lia.
Qed.

Lemma slice_to_prefix {A} (n : Z) (l : list A) : slice_to n l `prefix_of` l.
Proof. unfold slice_to. destruct (0 <=? n); apply prefix_take. Qed.

Lemma space_isspace : isspace SPACE = true.
Proof. reflexivity. Qed.

Lemma space_not_linebreak : is_linebreak SPACE = false.
Proof. reflexivity. Qed.

Lemma not_isspace_not_space c : isspace c = false → (c =? SPACE)%N = false.
Proof.
  intros Hc. destruct (N.eqb_spec c SPACE) as [->|]; [|done].
  by rewrite space_isspace in Hc.
Qed.

(** *** [lstrip], [rstrip], [strip] *)

Lemma lstrip_suffix s : ∃ t, s = t ++ lstrip s ∧ Forall (fun c => isspace c = true) t.
Proof.
  induction s as [|c s [t [Ht Hsp]]]; simpl.
  - by exists [].
  - destruct (isspace c) eqn:Hc.
    + exists (c :: t). split; [by rewrite Ht at 1 | by constructor].
    + by exists [].
Qed.

Lemma lstrip_head s c : head (lstrip s) = Some c → isspace c = false.
Proof.
  induction s as [|a s IH]; simpl; [done|].
  destruct (isspace a) eqn:Ha; [done|].
  simpl. by intros [= <-].
Qed.

Lemma lstrip_id s : (∀ c, head s = Some c → isspace c = false) → lstrip s = s.
Proof.
  destruct s as [|a s]; simpl; [done|].
  intros Hh. by rewrite (Hh a eq_refl).
Qed.

Lemma lstrip_all_space s : Forall (fun c => isspace c = true) s → lstrip s = [].
Proof. induction 1 as [|c s Hc _ IH]; simpl; [done | by rewrite Hc]. Qed.

Lemma rstrip_prefix s : ∃ t, s = rstrip s ++ t.
Proof.
  unfold rstrip. destruct (lstrip_suffix (reverse s)) as [t [Ht _]].
  exists (reverse t).
  rewrite <- reverse_app, <- Ht. by rewrite reverse_involutive.
Qed.

Lemma rstrip_last s c : last (rstrip s) = Some c → isspace c = false.
Proof. unfold rstrip. rewrite last_reverse. apply lstrip_head. Qed.

Lemma rstrip_id s : (∀ c, last s = Some c → isspace c = false) → rstrip s = s.
Proof.
  intros Hl. unfold rstrip. rewrite lstrip_id.
  - apply reverse_involutive.
  - intros c. rewrite head_reverse. apply Hl.
Qed.

Lemma rstrip_head s c : head (rstrip s) = Some c → head s = Some c.
Proof.
  destruct (rstrip_prefix s) as [t Ht]. rewrite Ht at 2.
  destruct (rstrip s); simpl; [done | by intros [= <-]].
Qed.

(** [strip] keeps a middle part of the string. *)
Lemma strip_middle s : ∃ t1 t2, s = t1 ++ strip s ++ t2.
Proof.
  unfold strip. destruct (lstrip_suffix s) as [t1 [H1 _]].
  destruct (rstrip_prefix (lstrip s)) as [t2 H2].
  exists t1, t2. by rewrite <- H2.
Qed.

Lemma strip_stripped s : stripped (strip s).
Proof.
  split; intros c Hc.
  - apply (lstrip_head s). by apply rstrip_head.
  - by apply (rstrip_last (lstrip s)).
Qed.

Lemma strip_id s : stripped s → strip s = s.
Proof. intros [Hh Hl]. unfold strip. rewrite lstrip_id by done. by apply rstrip_id. Qed.

Lemma strip_all_space s : Forall (fun c => isspace c = true) s → strip s = [].
Proof. intros Hs. unfold strip. by rewrite lstrip_all_space. Qed.

Lemma strip_idempotent s : strip (strip s) = strip s.
Proof. apply strip_id, strip_stripped. Qed.

Lemma strip_one_line s : one_line s → one_line (strip s).
Proof.
  unfold one_line. destruct (strip_middle s) as [t1 [t2 Hs]].
  rewrite Hs at 1. rewrite !Forall_app. tauto.
Qed.

(** *** Runs of two spaces *)

Lemma spaced_once_app l1 l2 :
  spaced_once (l1 ++ l2)
  = spaced_once l1 && spaced_once l2 && negb (both_space (last l1) (head l2)).
Proof.
  induction l1 as [|a l1 IH].
  - simpl. by rewrite andb_true_r.
  - destruct l1 as [|a' l1].
    + destruct l2 as [|b l2]; [done|].
      change (spaced_once ([a] ++ b :: l2))
        with (negb ((a =? SPACE)%N && (b =? SPACE)%N) && spaced_once (b :: l2)).
      change (spaced_once [a]) with true.
      change (both_space (last [a]) (head (b :: l2)))
        with ((a =? SPACE)%N && (b =? SPACE)%N).
      rewrite andb_true_l. apply andb_comm.
    + change (spaced_once ((a :: a' :: l1) ++ l2))
        with (negb ((a =? SPACE)%N && (a' =? SPACE)%N) && spaced_once ((a' :: l1) ++ l2)).
      rewrite IH.
      change (spaced_once (a :: a' :: l1))
        with (negb ((a =? SPACE)%N && (a' =? SPACE)%N) && spaced_once (a' :: l1)).
      change (last (a :: a' :: l1)) with (last (a' :: l1)).
      by rewrite !andb_assoc.
Qed.

Lemma strip_spaced_once s : spaced_once s = true → spaced_once (strip s) = true.
Proof.
  destruct (strip_middle s) as [t1 [t2 Hs]].
  rewrite Hs at 1. rewrite !spaced_once_app.
  rewrite !andb_true_iff. tauto.
Qed.

End PyStrFacts.

Import PyStrFacts.

(** ** The cleaning of the text in [fetch_url] *)

Module CleanUp.

(** What [clean_up] leaves: a single line, without white space at its ends
    and without two spaces in a row. *)
Definition clean (s : str) : Prop :=
  stripped s ∧ one_line s ∧ spaced_once s = true.

(** What the generator [chunk for chunk in chunks if chunk] yields. *)
Definition chunk_ok (c : str) : Prop := c ≠ [] ∧ clean c.

Lemma splitlines_from_one_line s : ∀ cur,
  one_line s →
  splitlines_from cur s = match cur ++ s with [] => [] | _ => [cur ++ s] end.
Proof.
  induction s as [|c s IH]; intros cur Hs.
  - simpl. rewrite app_nil_r. by destruct cur.
  - apply Forall_cons in Hs as [Hc Hs].
    simpl. rewrite Hc, IH by done. by rewrite <- app_assoc.
Qed.

Lemma splitlines_from_lines n : ∀ s cur,
  (length s ≤ n)%nat → one_line cur → Forall one_line (splitlines_from cur s).
Proof.
  induction n as [|n IH]; intros [|c s] cur Hn Hcur; simpl in Hn; try lia.
  - destruct cur; simpl; [constructor | constructor; [done | constructor]].
  - destruct cur; simpl; [constructor | constructor; [done | constructor]].
  - simpl. destruct (is_linebreak c) eqn:Hc.
    + constructor; [done|].
      destruct s as [|c' s]; [constructor|].
      destruct ((c =? CR)%N && (c' =? LF)%N);
        apply IH; simpl in *; try lia; constructor.
    + apply IH; [lia|]. apply Forall_app. split; [done|]. by repeat constructor.
Qed.

Lemma splitlines_lines s : Forall one_line (splitlines s).
Proof. apply (splitlines_from_lines (length s)); [lia | constructor]. Qed.

Lemma split_from_spaced_once s : ∀ cur,
  spaced_once s = true → split_from cur s = [cur ++ s].
Proof.
  induction s as [|c s IH]; intros cur Hs.
  - simpl. by rewrite app_nil_r.
  - destruct s as [|c' s]; [done|].
    change (spaced_once (c :: c' :: s))
      with (negb ((c =? SPACE)%N && (c' =? SPACE)%N) && spaced_once (c' :: s)) in Hs.
    apply andb_prop in Hs as [Hcc Hs]. apply negb_true_iff in Hcc.
    change (split_from cur (c :: c' :: s))
      with (if (c =? SPACE)%N && (c' =? SPACE)%N
            then cur :: split_from [] s
            else split_from (cur ++ [c]) (c' :: s)).
    rewrite Hcc, IH by done. by rewrite <- app_assoc.
Qed.

Lemma spaced_once_short (s : str) : (length s ≤ 1)%nat → spaced_once s = true.
Proof. destruct s as [|a [|b s]]; simpl; [done | done | lia]. Qed.

Lemma split_from_pieces n : ∀ s cur,
  (length s ≤ n)%nat →
  one_line (cur ++ s) →
  spaced_once (cur ++ take 1 s) = true →
  Forall (fun p => one_line p ∧ spaced_once p = true) (split_from cur s).
Proof.
  induction n as [|n IH]; intros [|c s] cur Hn Hline Hsp; simpl in Hn; try lia.
  - simpl in *. rewrite app_nil_r in Hline, Hsp. by repeat constructor.
  - simpl in *. rewrite app_nil_r in Hline, Hsp. by repeat constructor.
  - destruct s as [|c' s]; [by repeat constructor|].
    change (split_from cur (c :: c' :: s))
      with (if (c =? SPACE)%N && (c' =? SPACE)%N
            then cur :: split_from [] s
            else split_from (cur ++ [c]) (c' :: s)).
    change (take 1 (c :: c' :: s)) with [c] in Hsp.
    destruct ((c =? SPACE)%N && (c' =? SPACE)%N) eqn:Hcc.
    + constructor.
      * split.
        -- apply Forall_app in Hline. tauto.
        -- rewrite spaced_once_app, !andb_true_iff in Hsp. tauto.
      * apply IH; [simpl in *; lia | |].
        -- apply Forall_app in Hline as [_ Hline].
           by do 2 apply Forall_cons in Hline as [_ Hline].
        -- apply spaced_once_short. simpl. rewrite length_take. lia.
    + apply IH; [simpl in *; lia | by rewrite <- app_assoc |].
      change (take 1 (c' :: s)) with [c'].
      rewrite spaced_once_app, Hsp, last_snoc. simpl. by rewrite Hcc.
Qed.

Lemma split_double_space_pieces s :
  one_line s →
  Forall (fun p => one_line p ∧ spaced_once p = true) (split_double_space s).
Proof.
  intros Hs. apply (split_from_pieces (length s)); [lia | done |].
  apply spaced_once_short. simpl. rewrite length_take. lia.
Qed.

(** Every chunk that reaches [join] is a non-empty clean string. *)
Lemma chunks_ok (text : str) :
  Forall chunk_ok
    (filter (fun chunk => chunk ≠ [])
       ((strip <$> splitlines text)
          ≫= (fun line => strip <$> split_double_space line))).
Proof.
  apply Forall_forall. intros chunk [Hne Hin]%list_elem_of_filter.
  apply list_elem_of_bind in Hin as [line [Hchunk Hline]].
  apply list_elem_of_fmap in Hline as [raw [-> Hraw]].
  apply list_elem_of_fmap in Hchunk as [piece [-> Hpiece]].
  assert (one_line (strip raw)) as Hone.
  { apply strip_one_line.
    by apply (proj1 (Forall_forall _ _) (splitlines_lines text)). }
  pose proof (proj1 (Forall_forall _ _) (split_double_space_pieces _ Hone)
                _ Hpiece) as [Hp1 Hp2].
  split; [done|]. split; [apply strip_stripped|].
  split; [by apply strip_one_line | by apply strip_spaced_once].
Qed.

Lemma clean_nil : clean [].
Proof. split; [split; intros c [=] | split; [constructor | done]]. Qed.

Lemma join_space_clean (chunks : list str) :
  Forall chunk_ok chunks →
  clean (join [SPACE] chunks)
  ∧ ∀ c rest, chunks = c :: rest → head (join [SPACE] chunks) = head c.
Proof.
  induction 1 as [|c rest [Hne [[Hhd Hlst] [Hline Hsp]]] Hrest [IHc IHh]].
  - split; [apply clean_nil | done].
  - destruct rest as [|q rest].
    + by split; [|intros ? ? [= <- <-]].
    + change (join [SPACE] (c :: q :: rest))
        with (c ++ [SPACE] ++ join [SPACE] (q :: rest)).
      set (J := join [SPACE] (q :: rest)) in *.
      apply Forall_cons in Hrest as [[Hq _] _].
      specialize (IHh q rest eq_refl).
      destruct IHc as [[Jhd Jlst] [Jline Jsp]].
      assert (head (c ++ [SPACE] ++ J) = head c) as Hhead.
      { by destruct c. }
      assert (∃ x, head J = Some x ∧ isspace x = false) as [x [Hx Hxs]].
      { destruct q as [|x q]; [done|]. exists x. split; [done|].
        apply Jhd. by rewrite IHh. }
      assert (∃ y, last c = Some y ∧ isspace y = false) as [y [Hy Hys]].
      { destruct (last c) as [y|] eqn:Hl; [by eauto|].
        apply last_None in Hl. done. }
      split; [|by intros ? ? [= <- <-]].
      split; [split|split].
      * intros a. rewrite Hhead. apply Hhd.
      * intros a. rewrite !last_app.
        destruct (last J) as [z|] eqn:Hz; [intros [= <-]; by apply Jlst|].
        apply last_None in Hz. by rewrite Hz in Hx.
      * apply Forall_app. split; [done|].
        apply Forall_app. split; [|done].
        constructor; [apply space_not_linebreak | constructor].
      * rewrite !spaced_once_app, Hsp, Jsp, Hy, Hx. simpl.
        rewrite (not_isspace_not_space _ Hxs), (not_isspace_not_space _ Hys).
        done.
Qed.

Lemma clean_up_clean (text : str) : clean (clean_up text).
Proof. apply join_space_clean, chunks_ok. Qed.

(** Clean text goes through [clean_up] unchanged. *)
Lemma clean_up_id (text : str) : clean text → clean_up text = text.
Proof.
  intros [Hstr [Hline Hsp]]. unfold clean_up, splitlines.
  rewrite splitlines_from_one_line by done.
  destruct text as [|c text]; [done|].
  cbn [app].
  rewrite list_fmap_singleton, strip_id, bind_singleton by done.
  unfold split_double_space. rewrite split_from_spaced_once by done.
  cbn [app].
  rewrite list_fmap_singleton, strip_id by done.
  by rewrite filter_cons_True.
Qed.

End CleanUp.

(** ** The results of [search_duckduckgo] *)

Module Search.

(** Both the title element and the url element were found. *)
Definition complete (f : fragment) : Prop :=
  is_Some (title_elem f) ∧ is_Some (url_elem f).

Definition completeb (f : fragment) : bool :=
  match title_elem f, url_elem f with
  | Some _, Some _ => true
  | _, _ => false
  end.

Definition snippet_text (f : fragment) : str :=
  match snippet_elem f with
  | Some snippet => strip snippet
  | None => []
  end.

(** The record a fragment gives rise to, if any. *)
Definition record_of (f : fragment) : option (gmap string str) :=
  match title_elem f, url_elem f with
  | Some title, Some url =>
      Some (<["snippet" := snippet_text f]>
              (<["url" := strip url]> (<["title" := strip title]> ∅)))
  | _, _ => None
  end.

(** The reading of the specification: fragments without a title or a url
    are dropped first, and the limit is applied to what remains. *)
Definition first_complete (page : list fragment) (limit : Z)
  : list (gmap string str) :=
  omap record_of (slice_to limit (List.filter completeb page)).

(** The titles and the urls of a list of records, in order. *)
Definition titles (results : list (gmap string str)) : list (option str) :=
  (fun r => r !! "title") <$> results.

Definition urls (results : list (gmap string str)) : list (option str) :=
  (fun r => r !! "url") <$> results.

Lemma visit_result_record results f :
  visit_result results f
  = results ++ match record_of f with Some r => [r] | None => [] end.
Proof.
  unfold visit_result, record_of, snippet_text.
  destruct (title_elem f), (url_elem f); by rewrite ?app_nil_r.
Qed.

Lemma foldl_visit_result (page : list fragment) : ∀ results,
  foldl visit_result results page = results ++ omap record_of page.
Proof.
  induction page as [|f page IH]; intros results; csimpl.
  - by rewrite app_nil_r.
  - rewrite IH, visit_result_record, <- app_assoc.
    by destruct (record_of f).
Qed.

Lemma extract_results_omap page limit :
  extract_results page limit = omap record_of (slice_to limit page).
Proof. unfold extract_results. by rewrite foldl_visit_result. Qed.

Lemma length_omap_le {A B} (f : A → option B) (l : list A) :
  (length (omap f l) ≤ length l)%nat.
Proof. induction l as [|a l IH]; csimpl; [lia|]. destruct (f a); simpl; lia. Qed.

Lemma length_omap_all {A B} (f : A → option B) (l : list A) :
  Forall (fun a => is_Some (f a)) l → length (omap f l) = length l.
Proof.
  induction 1 as [|a l [b Hb] _ IH]; csimpl; [done|]. rewrite Hb. simpl. lia.
Qed.

Lemma record_of_complete f : complete f → is_Some (record_of f).
Proof.
  intros [[t Ht] [u Hu]]. unfold record_of. rewrite Ht, Hu. by eexists.
Qed.

Lemma record_of_Some f r :
  record_of f = Some r →
  ∃ title url,
    title_elem f = Some title ∧ url_elem f = Some url
    ∧ r = <["snippet" := snippet_text f]>
            (<["url" := strip url]> (<["title" := strip title]> ∅)).
Proof.
  unfold record_of.
  destruct (title_elem f) as [t|], (url_elem f) as [u|]; intros [= <-]; eauto.
Qed.

Lemma snippet_text_stripped f : stripped (snippet_text f).
Proof.
  unfold snippet_text. destruct (snippet_elem f); [apply strip_stripped|].
  split; intros c [=].
Qed.

(** The keys of a record and what they hold. *)
Lemma record_lookup (title url snippet : str) (key : string) (value : str) :
  (<["snippet" := snippet]> (<["url" := url]> (<["title" := title]> ∅))
     : gmap string str) !! key = Some value →
  key = "snippet"%string ∧ value = snippet
  ∨ key = "url"%string ∧ value = url
  ∨ key = "title"%string ∧ value = title.
Proof.
  intros Hk.
  apply lookup_insert_Some in Hk as [[<- <-]|[_ Hk]]; [by left|].
  apply lookup_insert_Some in Hk as [[<- <-]|[_ Hk]]; [by right; left|].
  apply lookup_insert_Some in Hk as [[<- <-]|[_ Hk]]; [by right; right|].
  by rewrite lookup_empty in Hk.
Qed.

Lemma extract_results_length page limit :
  0 <= limit → len (extract_results page limit) <= limit.
Proof.
  intros Hl. rewrite extract_results_omap.
  pose proof (length_omap_le record_of (slice_to limit page)).
  pose proof (slice_to_length limit page Hl). unfold len in *. lia.
Qed.

Lemma extract_results_elem page limit r :
  r ∈ extract_results page limit →
  ∃ f, f ∈ page ∧ record_of f = Some r.
Proof.
  rewrite extract_results_omap. intros Hr.
  apply list_elem_of_omap in Hr as [f [Hf Hr]].
  exists f. split; [|done].
  by apply (elem_of_prefix (slice_to limit page)), slice_to_prefix.
Qed.

Section WithLibraries.
Context `{Libraries}.

(** [search_duckduckgo] sends its one request and returns, whatever the
    answer. *)
Lemma run_search_duckduckgo net query limit :
  run net (search_duckduckgo query limit)
  = (Returned match search_try limit (net (search_request query)) with
              | inr results => results
              | inl e => search_except e
              end,
     [search_request query]).
Proof.
  change (search_duckduckgo query limit)
    with (Get (search_request query)
            (fun got => match search_try limit got with
                        | inr results => Ret results
                        | inl e => Ret (search_except e)
                        end)).
  cbn [run].
  by destruct (search_try limit (net (search_request query))).
Qed.

(** When the [try] block returns, it returns the records of a parsed page. *)
Lemma search_try_inr limit got results :
  search_try limit got = inr results →
  ∃ r page,
    got = inr r ∧ select_result_body (text r) = inr page
    ∧ results = extract_results page limit.
Proof.
  unfold search_try. destruct got as [e|r]; [done|].
  destruct (raise_for_status r); [done|].
  destruct (select_result_body (text r)) as [d|page] eqn:Hp; [done|].
  intros [= <-]. eauto.
Qed.

End WithLibraries.

End Search.

(** ** Running programs *)

Lemma run_bind {A B} net (m : io A) (f : A → io B) :
  run net (bind m f)
  = match run net m with
    | (Returned a, sent) =>
        let '(r, sent') := run net (f a) in (r, sent ++ sent')
    | (Raised e, sent) => (Raised e, sent)
    end.
Proof.
  induction m as [a|e|rq k IH]; simpl.
  - by destruct (run net (f a)).
  - done.
  - rewrite IH. destruct (run net (k (net rq))) as [[a|e] sent]; [|done].
    by destruct (run net (f a)).
Qed.

(** A network on which every request is answered [200 OK] with [body]. *)
Definition ok_net (body : str) : request → exception + response :=
  fun _ => inr (Response 200 (txt "OK") body).

(** A network on which every request times out. *)
Definition timeout_net : request → exception + response :=
  fun _ => inl TimeoutException.

(** ** The arguments of [search_and_fetch] *)

Module Arguments.

Lemma checked_arguments_blank_query q limit :
  Forall (fun c => isspace c = true) q →
  checked_arguments (VStr q) limit
  = inl (ValueError "Query must be a non-empty string").
Proof. intros Hq. unfold checked_arguments. simpl. by rewrite strip_all_space. Qed.

Lemma checked_arguments_error query limit e :
  checked_arguments query limit = inl e →
  e = ValueError "Query must be a non-empty string"
  ∨ e = ValueError "Limit must be a positive integer".
Proof.
  unfold checked_arguments.
  destruct (as_str query) as [q|]; [|intros [= <-]; by left].
  destruct (strip q); [intros [= <-]; by left|].
  destruct (as_int limit) as [n|]; [|intros [= <-]; by right].
  destruct (n <? 1); [intros [= <-]; by right | done].
Qed.

Lemma checked_arguments_bad_limit query limit :
  ¬ (∃ n, as_int limit = Some n ∧ 1 <= n) →
  ∃ e, checked_arguments query limit = inl e.
Proof.
  intros Hl. unfold checked_arguments.
  destruct (as_str query) as [q|]; [|by eexists].
  destruct (strip q); [by eexists|].
  destruct (as_int limit) as [n|]; [|by eexists].
  destruct (Z.ltb_spec n 1); [by eexists|].
  destruct Hl. by exists n.
Qed.

Lemma checked_arguments_valid q limit n :
  strip q ≠ [] → as_int limit = Some n → 1 <= n →
  checked_arguments (VStr q) limit = inr (q, Z.min n 10).
Proof.
  intros Hq Hl Hn. unfold checked_arguments. simpl. rewrite Hl.
  destruct (strip q); [done|].
  destruct (Z.ltb_spec n 1); [lia | done].
Qed.

End Arguments.

(** ** The orchestrator *)

Module Orchestrator.
Import Arguments Search.

Section WithLibraries.
Context `{Libraries}.

(** Whatever exception leaves its [try] block, [search_duckduckgo] returns
    a list of one record with the single key [error]. *)
Lemma search_except_marker e :
  ∃ msg, search_except e = [ {["error" := msg]} ].
Proof. destruct e; by eexists. Qed.

(** An error marker has no [url] entry, so the list comprehension of
    [search_and_fetch] raises on it. *)
Lemma fetch_summaries_error_marker query e :
  fetch_summaries query (search_except e) = Raise (KeyError "url").
Proof. by destruct e. Qed.

(** [search] hands the error marker back as it is. *)
Lemma search_passes_error_marker net q limit n e :
  strip q ≠ [] → as_int limit = Some n → 1 <= n →
  search_try (Z.min n 10) (net (search_request q)) = inl e →
  run net (search (VStr q) limit)
  = (Returned (search_except e), [search_request q]).
Proof.
  intros Hq Hl Hn He. unfold search.
  rewrite (checked_arguments_valid q limit n) by done.
  rewrite run_bind, run_search_duckduckgo, He.
  by destruct e.
Qed.

(** When the search step fails, [search_and_fetch] sends the search
    request, no other, and raises [KeyError]. *)
Lemma search_and_fetch_on_failure net q limit n e :
  strip q ≠ [] → as_int limit = Some n → 1 <= n →
  search_try (Z.min n 10) (net (search_request q)) = inl e →
  run net (search_and_fetch (VStr q) limit)
  = (Raised (KeyError "url"), [search_request q]).
Proof.
  intros Hq Hl Hn He. unfold search_and_fetch.
  rewrite (checked_arguments_valid q limit n) by done.
  rewrite run_bind, run_search_duckduckgo, He.
  by rewrite fetch_summaries_error_marker.
Qed.

(** C1, at the failing input: the search for [rust programming] with limit 3
    times out. [search_duckduckgo] returns the one-element error marker and
    [search] returns that marker unchanged, but [search_and_fetch] raises
    [KeyError] on the marker, having sent no fetch request. *)
Theorem search_timeout_raises_KeyError :
  let query := txt "rust programming" in
  let marker : list (gmap string str) :=
    [ {["error" := txt "Request timed out"]} ] in
  run timeout_net (search_duckduckgo query 3)
  = (Returned marker, [search_request query])
  ∧ run timeout_net (search (VStr query) (VInt 3))
    = (Returned marker, [search_request query])
  ∧ run timeout_net (search_and_fetch (VStr query) (VInt 3))
    = (Raised (KeyError "url"), [search_request query]).
Proof.
  intros query marker. split; [|split].
  - by rewrite run_search_duckduckgo.
  - by rewrite (search_passes_error_marker _ query (VInt 3) 3 TimeoutException).
  - by rewrite (search_and_fetch_on_failure _ query (VInt 3) 3 TimeoutException).
Qed.

(** C6: for every valid query and every integer limit above 10, the checks
    of [search_and_fetch] pass with the limit 10, and the search step that
    follows is [search_duckduckgo query 10]. *)
Theorem search_and_fetch_clamps_limit (q : str) (limit : pyval) (n : Z) :
  strip q ≠ [] → as_int limit = Some n → 10 < n →
  checked_arguments (VStr q) limit = inr (q, 10)
  ∧ search_and_fetch (VStr q) limit
    = (await results <- search_duckduckgo q 10; fetch_summaries q results).
Proof.
  intros Hq Hl Hn.
  assert (checked_arguments (VStr q) limit = inr (q, 10)) as Hc.
  { rewrite (checked_arguments_valid q limit n) by (done || lia).
    by rewrite Z.min_r by lia. }
  split; [done|]. unfold search_and_fetch. by rewrite Hc.
Qed.

(** C7: a query that is empty or all white space, and a limit that is not an
    integer of at least 1, each make [search_and_fetch] raise [ValueError];
    no request is sent. *)
Theorem search_and_fetch_rejects_arguments (query limit : pyval) :
  (∃ q, query = VStr q ∧ Forall (fun c => isspace c = true) q)
  ∨ ¬ (∃ n, as_int limit = Some n ∧ 1 <= n) →
  ∃ msg,
    (msg = "Query must be a non-empty string"%string
     ∨ msg = "Limit must be a positive integer"%string)
    ∧ search_and_fetch query limit = Raise (ValueError msg)
    ∧ ∀ net, run net (search_and_fetch query limit)
             = (Raised (ValueError msg), []).
Proof.
  intros Hbad.
  assert (∃ e, checked_arguments query limit = inl e) as [e He].
  { destruct Hbad as [[q [-> Hq]]|Hl].
    - eexists. by apply checked_arguments_blank_query.
    - by apply checked_arguments_bad_limit. }
  unfold search_and_fetch. rewrite He.
  destruct (checked_arguments_error _ _ _ He) as [->| ->];
    eexists; (split; [|done]); [by left | by right].
Qed.

End WithLibraries.

(** C6 at the limit 50. *)
Lemma search_and_fetch_clamps_limit_witness :
  checked_arguments (VStr (txt "rust programming")) (VInt 50)
  = inr (txt "rust programming", 10)
  ∧ @search_and_fetch (fixture []) (VStr (txt "rust programming")) (VInt 50)
    = (await results <- @search_duckduckgo (fixture []) (txt "rust programming") 10;
       @fetch_summaries (fixture []) (txt "rust programming") results).
Proof.
  apply (@search_and_fetch_clamps_limit (fixture [])
           (txt "rust programming") (VInt 50) 50).
  - vm_compute. discriminate.
  - reflexivity.
  - lia.
Defined.

(** C7 at a query of three spaces, at the limit 0 and at a limit that is
    not an integer. *)
Lemma search_and_fetch_rejects_arguments_witness :
  let rejected query limit :=
    ∃ msg,
      (msg = "Query must be a non-empty string"%string
       ∨ msg = "Limit must be a positive integer"%string)
      ∧ @search_and_fetch (fixture []) query limit = Raise (ValueError msg)
      ∧ ∀ net, run net (@search_and_fetch (fixture []) query limit)
               = (Raised (ValueError msg), []) in
  rejected (VStr (txt "   ")) (VInt 3)
  ∧ rejected (VStr (txt "rust")) (VInt 0)
  ∧ rejected (VStr (txt "rust")) VOther.
Proof.
  intros rejected.
  split; [|split].
  - apply (@search_and_fetch_rejects_arguments (fixture [])).
    left. eexists. split; [reflexivity|].
    vm_compute. repeat constructor.
  - apply (@search_and_fetch_rejects_arguments (fixture [])).
    right. intros [n [[= <-] Hn]]. lia.
  - apply (@search_and_fetch_rejects_arguments (fixture [])).
    right. intros [n [[=] _]].
Defined.

End Orchestrator.

(** ** The page fetcher *)

Module Fetcher.
Import CleanUp.

(** [s.startswith(p)] holds exactly when [s] is [p] followed by something. *)
Lemma startswith_spec (s p : str) :
  startswith s p = true ↔ ∃ rest, s = p ++ rest.
Proof.
  revert s. induction p as [|a p IH]; intros [|b s]; simpl.
  - split; [by exists [] | done].
  - split; [by exists (b :: s) | done].
  - split; [done | by intros [rest [=]]].
  - rewrite andb_true_iff, IH, N.eqb_eq. split.
    + intros [-> [rest ->]]. by exists rest.
    + intros [rest [= -> ->]]. eauto.
Qed.

(** The url starts with one of the two prefixes [fetch_url] looks for. *)
Definition has_http_prefix (url : str) : Prop :=
  ∃ rest, url = txt "http://" ++ rest ∨ url = txt "https://" ++ rest.

(** The reading of the specification: the url starts with a scheme, a letter
    followed by letters, digits, [+], [-] or [.], and then [://]. *)
Definition is_alpha (c : char) : bool :=
  ((65 <=? c) && (c <=? 90) || (97 <=? c) && (c <=? 122))%N.

Definition is_scheme_char (c : char) : bool :=
  (is_alpha c || (48 <=? c) && (c <=? 57) || (c =? 43) || (c =? 45) || (c =? 46))%N.

Fixpoint after_scheme (s : str) : bool :=
  match s with
  | [] => false
  | c :: s' =>
      if (c =? 58)%N then startswith s' (txt "//")
      else is_scheme_char c && after_scheme s'
  end.

Definition has_scheme_prefix (url : str) : bool :=
  match url with
  | c :: s => is_alpha c && after_scheme s
  | [] => false
  end.

Lemma with_scheme_prefixed url : has_http_prefix url → with_scheme url = url.
Proof.
  intros [rest Hr]. unfold with_scheme.
  assert (startswith url (txt "http://") || startswith url (txt "https://")
          = true) as ->; [|done].
  apply orb_true_iff.
  destruct Hr as [Hr|Hr]; [left | right]; apply startswith_spec; eauto.
Qed.

Lemma with_scheme_bare url :
  ¬ has_http_prefix url → with_scheme url = txt "https://" ++ url.
Proof.
  intros Hno. unfold with_scheme.
  destruct (startswith url (txt "http://")) eqn:H1.
  { destruct Hno. apply startswith_spec in H1 as [rest ->]. exists rest. tauto. }
  destruct (startswith url (txt "https://")) eqn:H2; [|done].
  destruct Hno. apply startswith_spec in H2 as [rest ->]. exists rest. tauto.
Qed.

Lemma limit_length_long (text : str) :
  10000 < len text →
  limit_length text = slice_to 10000 text ++ txt "... [content truncated]"
  ∧ len (limit_length text) = 10000 + len (txt "... [content truncated]")
  ∧ slice_to 10000 (limit_length text) = slice_to 10000 text.
Proof.
  intros Hlong. unfold limit_length.
  destruct (Z.ltb_spec 10000 (len text)); [|lia].
  assert (len (slice_to 10000 text) = 10000) as Hlen.
  { rewrite slice_to_length by lia. lia. }
  split; [done|]. split.
  - by rewrite len_app, Hlen.
  - rewrite (slice_to_nonneg 10000 (_ ++ _)) by lia.
    rewrite take_app_le; [|unfold len in Hlen; lia].
    rewrite take_ge; [done|]. unfold len in Hlen. lia.
Qed.

Lemma limit_length_short (text : str) :
  len text <= 10000 → limit_length text = text.
Proof.
  intros Hshort. unfold limit_length.
  by destruct (Z.ltb_spec 10000 (len text)); [lia|].
Qed.

(** The two cases of [raise_for_status]: the status of [r] is from 200 to
    299, or it is not. *)
Ltac status_cases r :=
  unfold fetch_try, raise_for_status;
  destruct (Z.leb_spec 200 (status_code r)),
           (Z.leb_spec (status_code r) 299);
  simpl; try lia.

Section WithLibraries.
Context `{Libraries}.

(** [fetch_url] sends its one request and returns, whatever the answer. *)
Lemma run_fetch_url net url :
  run net (fetch_url url)
  = (Returned match fetch_try (net (fetch_request url)) with
              | inr text => text
              | inl e => fetch_except e
              end,
     [fetch_request url]).
Proof.
  change (fetch_url url)
    with (Get (fetch_request url)
            (fun got => match fetch_try got with
                        | inr text => Ret text
                        | inl e => Ret (fetch_except e)
                        end)).
  cbn [run].
  by destruct (fetch_try (net (fetch_request url))).
Qed.

(** C3: when the page is fetched and its text extracted, [fetch_url] returns
    the cleaned text cut to its first 10,000 characters and followed by the
    marker if it is longer than 10,000 characters, so that the result is
    10,000 characters and the marker long; a cleaned text of at most 10,000
    characters is returned as it is. *)
Theorem fetch_url_truncates net url (r : response) (raw : str) :
  net (fetch_request url) = inr r →
  raise_for_status r = inr tt →
  main_content_text (text r) = inr raw →
  let text := clean_up raw in
  let out := limit_length text in
  run net (fetch_url url) = (Returned out, [fetch_request url])
  ∧ (10000 < len text →
     out = slice_to 10000 text ++ txt "... [content truncated]"
     ∧ len out = 10000 + len (txt "... [content truncated]")
     ∧ slice_to 10000 out = slice_to 10000 text)
  ∧ (len text <= 10000 → out = text).
Proof.
  intros Hnet Hok Hraw text out. split; [|split].
  - rewrite run_fetch_url, Hnet. unfold fetch_try. by rewrite Hok, Hraw.
  - apply limit_length_long.
  - apply limit_length_short.
Qed.

(** C4: cleaning a text that [clean_up] has cleaned changes nothing. *)
Theorem clean_up_idempotent (text : str) :
  clean_up (clean_up text) = clean_up text.
Proof.
  pose proof (clean_up_clean text) as Hclean.
  by apply clean_up_id.
Qed.

(** C8: [fetch_url] always returns a string. On a timeout, on a status
    outside 200 to 299 and on any other exception, of the request or of the
    parser, the string is the error text of the matching [except] clause. *)
Theorem fetch_url_never_raises net url :
  ∃ out,
    run net (fetch_url url) = (Returned out, [fetch_request url])
    ∧ (net (fetch_request url) = inl TimeoutException →
       out = txt "Error: Request timed out while fetching the webpage")
    ∧ (∀ r, net (fetch_request url) = inr r →
            ¬ (200 <= status_code r <= 299) →
            out = txt "Error: HTTP " ++ str_of_int (status_code r)
                    ++ txt " - " ++ reason_phrase r)
    ∧ (∀ d, net (fetch_request url) = inl (Exception d) →
            out = txt "Error: Failed to fetch webpage - " ++ d)
    ∧ (∀ r d, net (fetch_request url) = inr r →
              200 <= status_code r <= 299 →
              main_content_text (text r) = inl d →
              out = txt "Error: Failed to fetch webpage - " ++ d).
Proof.
  eexists. split; [apply run_fetch_url|].
  split; [|split; [|split]].
  - by intros ->.
  - intros r -> Hst. status_cases r; done.
  - by intros d ->.
  - intros r d -> Hst Hd. status_cases r. by rewrite Hd.
Qed.

(** C9, as the code has it: the request of [fetch_url] goes to the url
    itself when the url starts with [http://] or [https://], and to the url
    with [https://] put before it in every other case. *)
Theorem fetch_url_request_url net url :
  ∃ out,
    run net (fetch_url url) = (Returned out, [fetch_request url])
    ∧ (has_http_prefix url → req_url (fetch_request url) = url)
    ∧ (¬ has_http_prefix url →
       req_url (fetch_request url) = txt "https://" ++ url).
Proof.
  eexists. split; [apply run_fetch_url|]. split.
  - apply with_scheme_prefixed.
  - apply with_scheme_bare.
Qed.

End WithLibraries.

(** A page of 5,001 lines of one letter each: its cleaned text is the 5,001
    letters with a space between them, 10,001 characters long. *)
Definition long_page : str :=
  mjoin (replicate (Z.to_nat 5001) [97; 10]%N).

(** C3 at [long_page]: the result is 10,023 characters long. *)
Lemma fetch_url_truncates_witness :
  let out := limit_length (clean_up long_page) in
  run (ok_net long_page) (@fetch_url (fixture []) (txt "example.com"))
  = (Returned out, [fetch_request (txt "example.com")])
  ∧ len out = 10023
  ∧ slice_to 10000 out = slice_to 10000 (clean_up long_page).
Proof.
  destruct (@fetch_url_truncates (fixture []) (ok_net long_page)
              (txt "example.com") (Response 200 (txt "OK") long_page)
              long_page eq_refl eq_refl eq_refl) as [Hrun [Hlong _]].
  destruct Hlong as [_ [Hlen Hfirst]]; [by vm_compute|].
  split; [exact Hrun|]. split; [|exact Hfirst].
  etransitivity; [exact Hlen | reflexivity].
Defined.

(** C9, the claim as stated fails: [ftp://example.com] has a scheme prefix,
    and the request goes to [https://ftp://example.com]. *)
Lemma fetch_url_ftp_url_not_kept :
  has_scheme_prefix (txt "ftp://example.com") = true
  ∧ snd (run timeout_net (@fetch_url (fixture []) (txt "ftp://example.com")))
    = [Request (txt "https://ftp://example.com") fetch_headers 15 true].
Proof. split; by vm_compute. Qed.

End Fetcher.

(** ** The search client *)

Module SearchClient.
Import Search.

(** C2, as the code has it: the limit is applied to the fragments of the
    page first, and the fragments without a title or a url element are
    dropped from that slice. The output is at most as long as the slice, at
    most [limit] long for a limit that is not negative, and exactly [limit]
    long when the page has [limit] fragments and the first [limit] of them
    all have both elements. *)
Theorem extract_results_of_first_limit (page : list fragment) (limit : Z) :
  extract_results page limit = omap record_of (slice_to limit page)
  ∧ len (extract_results page limit) <= len (slice_to limit page)
  ∧ (0 <= limit → len (extract_results page limit) <= limit)
  ∧ (0 <= limit <= len page →
     Forall complete (slice_to limit page) →
     len (extract_results page limit) = limit).
Proof.
  rewrite extract_results_omap.
  pose proof (length_omap_le record_of (slice_to limit page)) as Hle.
  split; [done|]. split; [unfold len; lia|]. split.
  - intros Hl. rewrite <- extract_results_omap.
    by apply extract_results_length.
  - intros Hl Hall. pose proof (slice_to_length limit page (proj1 Hl)) as Hs.
    unfold len in *. rewrite length_omap_all; [lia|].
    eapply Forall_impl; [exact Hall|]. apply record_of_complete.
Qed.

(** C2, the claim as stated fails: on a page whose first fragment has no
    title element and whose second fragment has both elements, the limit 1
    gives no record, where the first fragment with both elements was
    promised. *)
Lemma extract_results_counts_skipped :
  let page := [Fragment None (Some (txt "a.example")) None;
               Fragment (Some (txt "B")) (Some (txt "b.example")) None] in
  extract_results page 1 = []
  ∧ len (List.filter completeb page) = 1
  ∧ titles (first_complete page 1) = [Some (txt "B")].
Proof.
  intros page. split; [|split].
  - rewrite extract_results_omap. reflexivity.
  - reflexivity.
  - vm_compute. reflexivity.
Qed.

Section WithLibraries.
Context `{Libraries}.

(** C5, as the code has it: for a query that is not empty and a limit from
    1 to 10, a search that succeeds returns at most [limit] records, and
    every record has a title and a url entry, each the stripped text of an
    element that the page has. *)
Theorem search_results_within_limit net (query : str) (limit : Z)
    (results : list (gmap string str)) :
  query ≠ [] → 1 <= limit <= 10 →
  search_try limit (net (search_request query)) = inr results →
  run net (search_duckduckgo query limit)
  = (Returned results, [search_request query])
  ∧ len results <= limit
  ∧ ∃ resp page,
      net (search_request query) = inr resp
      ∧ select_result_body (text resp) = inr page
      ∧ ∀ r, r ∈ results →
          ∃ f title url,
            f ∈ page
            ∧ title_elem f = Some title ∧ url_elem f = Some url
            ∧ r !! "title" = Some (strip title)
            ∧ r !! "url" = Some (strip url).
Proof.
  intros _ Hlimit Htry. split; [|split].
  - by rewrite run_search_duckduckgo, Htry.
  - apply search_try_inr in Htry as [resp [page [_ [_ ->]]]].
    apply extract_results_length. lia.
  - apply search_try_inr in Htry as [resp [page [Hnet [Hpage ->]]]].
    exists resp, page. split; [done|]. split; [done|]. intros r Hr.
    apply extract_results_elem in Hr as [f [Hin Hf]].
    apply record_of_Some in Hf as [title [url [Ht [Hu ->]]]].
    exists f, title, url. by simplify_map_eq.
Qed.

(** C10: every value of every record that a successful search returns is
    without white space at its ends; the title, the url and the snippet are
    the stripped texts of the elements of one fragment of the page, and the
    snippet is empty when the fragment has no snippet element. *)
Theorem search_results_stripped net (query : str) (limit : Z)
    (results : list (gmap string str)) (r : gmap string str) :
  search_try limit (net (search_request query)) = inr results →
  r ∈ results →
  run net (search_duckduckgo query limit)
  = (Returned results, [search_request query])
  ∧ (∀ key value, r !! key = Some value → stripped value)
  ∧ ∃ resp page f title url,
      net (search_request query) = inr resp
      ∧ select_result_body (text resp) = inr page
      ∧ f ∈ page
      ∧ title_elem f = Some title ∧ url_elem f = Some url
      ∧ r !! "title" = Some (strip title)
      ∧ r !! "url" = Some (strip url)
      ∧ r !! "snippet" = Some match snippet_elem f with
                              | Some snippet => strip snippet
                              | None => []
                              end.
Proof.
  intros Htry Hr. split; [by rewrite run_search_duckduckgo, Htry|].
  apply search_try_inr in Htry as [resp [page [Hnet [Hpage ->]]]].
  apply extract_results_elem in Hr as [f [Hin Hf]].
  apply record_of_Some in Hf as [title [url [Ht [Hu ->]]]].
  split.
  - intros key value Hkv.
    apply record_lookup in Hkv as [[_ ->]|[[_ ->]|[_ ->]]];
      auto using strip_stripped, snippet_text_stripped.
  - exists resp, page, f, title, url. by simplify_map_eq.
Qed.

End WithLibraries.

(** A results page of three fragments: the second has no title element, and
    the third has a title element whose text is a single space and no
    snippet element. *)
Definition sample_page : list fragment :=
  [Fragment (Some (txt " Rust Programming Language "))
            (Some (txt "  www.rust-lang.org  "))
            (Some (txt " A language empowering everyone. "));
   Fragment None (Some (txt "doc.rust-lang.org")) None;
   Fragment (Some (txt " ")) (Some (txt "example.com")) None].

(** C5, the claim as stated fails: the third fragment of [sample_page] has
    both elements, and the title of its record is the empty string. *)
Lemma search_returns_empty_title :
  let results := extract_results sample_page 3 in
  run (ok_net []) (@search_duckduckgo (fixture sample_page)
                     (txt "rust programming") 3)
  = (Returned results, [search_request (txt "rust programming")])
  ∧ titles results = [Some (txt "Rust Programming Language"); Some []]
  ∧ urls results = [Some (txt "www.rust-lang.org"); Some (txt "example.com")].
Proof.
  intros results. split; [|split].
  - rewrite (@run_search_duckduckgo (fixture sample_page)). reflexivity.
  - vm_compute. reflexivity.
  - vm_compute. reflexivity.
Qed.

(** C5, as the code has it, at [sample_page] and the limit 3. *)
Lemma search_results_within_limit_witness :
  let results := extract_results sample_page 3 in
  run (ok_net []) (@search_duckduckgo (fixture sample_page)
                     (txt "rust programming") 3)
  = (Returned results, [search_request (txt "rust programming")])
  ∧ len results <= 3
  ∧ ∃ resp page,
      ok_net [] (search_request (txt "rust programming")) = inr resp
      ∧ @select_result_body (fixture sample_page) (text resp) = inr page
      ∧ ∀ r, r ∈ results →
          ∃ f title url,
            f ∈ page
            ∧ title_elem f = Some title ∧ url_elem f = Some url
            ∧ r !! "title" = Some (strip title)
            ∧ r !! "url" = Some (strip url).
Proof.
  apply (@search_results_within_limit (fixture sample_page) (ok_net [])
           (txt "rust programming") 3).
  - discriminate.
  - lia.
  - reflexivity.
Defined.

(** C10 at the record of the first fragment of [sample_page]. *)
Lemma search_results_stripped_witness :
  let r : gmap string str :=
    <["snippet" := txt "A language empowering everyone."]>
      (<["url" := txt "www.rust-lang.org"]>
         (<["title" := txt "Rust Programming Language"]> ∅)) in
  (∀ key value, r !! key = Some value → stripped value)
  ∧ r !! "title" = Some (txt "Rust Programming Language").
Proof.
  intros r.
  destruct (@search_results_stripped (fixture sample_page) (ok_net [])
              (txt "rust programming") 3
              (omap record_of (slice_to 3 sample_page)) r
              (f_equal inr (extract_results_omap sample_page 3)))
    as [_ [Hstripped _]].
  - apply list_elem_of_omap.
    exists (Fragment (Some (txt " Rust Programming Language "))
                     (Some (txt "  www.rust-lang.org  "))
                     (Some (txt " A language empowering everyone. "))).
    split; [apply list_elem_of_here | reflexivity].
  - split; [exact Hstripped | reflexivity].
Defined.

End SearchClient.

(** ** A run of [search_and_fetch] from end to end *)

Module Scenario.
Import Search SearchClient.

(** The search is answered, the first page is fetched, and every other
    request times out. *)
Definition sample_net (rq : request) : exception + response :=
  if bool_decide
       (req_url rq = req_url (search_request (txt "rust programming")))
  then inr (Response 200 (txt "OK") [])
  else if bool_decide (req_url rq = txt "https://www.rust-lang.org")
  then inr (Response 200 (txt "OK") (txt "  Rust   A language  "))
  else inl TimeoutException.

Definition summaries (results : list (gmap string str)) : list (option str) :=
  (fun r => r !! "summary") <$> results.

(** Both records come back, in the order of the page, each with the outcome
    of its own fetch; the requests are the search and then one fetch per
    record. *)
Example search_and_fetch_sample :
  ∃ results,
    run sample_net (@search_and_fetch (fixture sample_page)
                      (VStr (txt "rust programming")) (VInt 3))
    = (Returned results,
       [search_request (txt "rust programming");
        fetch_request (txt "www.rust-lang.org");
        fetch_request (txt "example.com")])
    ∧ urls results = [Some (txt "www.rust-lang.org"); Some (txt "example.com")]
    ∧ summaries results
      = [Some (txt "Rust A language");
         Some (txt "Error: Request timed out while fetching the webpage")].
Proof.
  eexists. split; [|split].
  - unfold search_and_fetch.
    rewrite (Arguments.checked_arguments_valid _ (VInt 3) 3)
      by (done || vm_compute; discriminate).
    rewrite run_bind, (@run_search_duckduckgo (fixture sample_page)).
    reflexivity.
  - vm_compute. reflexivity.
  - vm_compute. reflexivity.
Qed.

End Scenario.

(** ** What the cleaning keeps and what it removes *)

Module CleanUpText.
Import CleanUp.

(** The characters of a text that are not white space, in order. *)
Definition visible (s : list char) : list char :=
  filter (fun c => isspace c = false) s.

Lemma linebreak_isspace c : is_linebreak c = true → isspace c = true.
Proof.
  unfold is_linebreak, isspace.
  rewrite !orb_true_iff, !andb_true_iff, !N.leb_le, !N.eqb_eq. lia.
Qed.

Lemma visible_app s1 s2 : visible (s1 ++ s2) = visible s1 ++ visible s2.
Proof. apply filter_app. Qed.

Lemma visible_space c s : isspace c = true → visible (c :: s) = visible s.
Proof. intros Hc. unfold visible. rewrite filter_cons_False; [done|]. by rewrite Hc. Qed.

Lemma visible_keep c s : isspace c = false → visible (c :: s) = c :: visible s.
Proof. intros Hc. unfold visible. by rewrite filter_cons_True. Qed.

Lemma visible_nil_iff s : visible s = [] ↔ Forall (fun c => isspace c = true) s.
Proof.
  induction s as [|c s IH].
  - split; [constructor | done].
  - destruct (isspace c) eqn:Hc.
    + rewrite visible_space, IH by done. split.
      * by constructor.
      * by intros [_ ?]%Forall_cons.
    + rewrite visible_keep by done. split; [done|].
      intros [Hc' _]%Forall_cons. congruence.
Qed.

Lemma visible_lstrip s : visible (lstrip s) = visible s.
Proof.
  induction s as [|c s IH]; simpl; [done|].
  destruct (isspace c) eqn:Hc; [|done]. by rewrite visible_space.
Qed.

Lemma visible_rstrip s : visible (rstrip s) = visible s.
Proof.
  unfold rstrip, visible. rewrite filter_reverse.
  fold (visible (lstrip (reverse s))). rewrite visible_lstrip.
  unfold visible. by rewrite filter_reverse, reverse_involutive.
Qed.

Lemma visible_strip s : visible (strip s) = visible s.
Proof. unfold strip. by rewrite visible_rstrip, visible_lstrip. Qed.

Lemma visible_splitlines_from n : ∀ s cur,
  (length s ≤ n)%nat →
  visible (concat (splitlines_from cur s)) = visible (cur ++ s).
Proof.
  induction n as [|n IH]; intros [|c s] cur Hn; simpl in Hn; try lia.
  - destruct cur; simpl; by rewrite ?app_nil_r.
  - destruct cur; simpl; by rewrite ?app_nil_r.
  - cbn [splitlines_from]. destruct (is_linebreak c) eqn:Hc.
    + pose proof (linebreak_isspace c Hc) as Hsp.
      rewrite concat_cons, !visible_app, (visible_space c) by done.
      f_equal. destruct s as [|c' s]; [done|].
      destruct ((c =? CR)%N && (c' =? LF)%N) eqn:Hcrlf.
      * apply andb_prop in Hcrlf as [_ ->%N.eqb_eq].
        rewrite IH by (simpl in *; lia). by rewrite visible_space.
      * by rewrite IH by (simpl in *; lia).
    + rewrite IH by lia. by rewrite <- app_assoc.
Qed.

Lemma visible_splitlines s : visible (concat (splitlines s)) = visible s.
Proof. apply (visible_splitlines_from (length s)). lia. Qed.

Lemma visible_split_from n : ∀ s cur,
  (length s ≤ n)%nat →
  visible (concat (split_from cur s)) = visible (cur ++ s).
Proof.
  induction n as [|n IH]; intros [|c s] cur Hn; simpl in Hn; try lia.
  - simpl. by rewrite !app_nil_r.
  - simpl. by rewrite !app_nil_r.
  - destruct s as [|c' s]; [simpl; by rewrite app_nil_r|].
    change (split_from cur (c :: c' :: s))
      with (if (c =? SPACE)%N && (c' =? SPACE)%N
            then cur :: split_from [] s
            else split_from (cur ++ [c]) (c' :: s)).
    destruct ((c =? SPACE)%N && (c' =? SPACE)%N) eqn:Hcc.
    + apply andb_prop in Hcc as [->%N.eqb_eq ->%N.eqb_eq].
      rewrite concat_cons, !visible_app, IH by (simpl in *; lia).
      by rewrite !(visible_space SPACE).
    + rewrite IH by (simpl in *; lia). by rewrite <- app_assoc.
Qed.

Lemma visible_split_double_space s :
  visible (concat (split_double_space s)) = visible s.
Proof. apply (visible_split_from (length s)). lia. Qed.

Lemma visible_concat_strip (pieces : list str) :
  visible (concat (strip <$> pieces)) = visible (concat pieces).
Proof.
  induction pieces as [|p pieces IH]; [done|].
  rewrite fmap_cons, !concat_cons, !visible_app, IH. by rewrite visible_strip.
Qed.

Lemma visible_chunks (lines : list str) :
  visible (concat ((strip <$> lines)
                     ≫= (fun line => strip <$> split_double_space line)))
  = visible (concat lines).
Proof.
  induction lines as [|l lines IH]; [done|].
  rewrite fmap_cons, bind_cons, concat_app, concat_cons, !visible_app, IH.
  by rewrite visible_concat_strip, visible_split_double_space, visible_strip.
Qed.

Lemma concat_nonempty (chunks : list str) :
  concat (filter (fun chunk => chunk ≠ []) chunks) = concat chunks.
Proof.
  induction chunks as [|c chunks IH]; [done|].
  destruct c as [|a c].
  - by rewrite filter_cons_False by (by intros []).
  - rewrite filter_cons_True by done. rewrite !concat_cons. f_equal. exact IH.
Qed.

Lemma visible_join (chunks : list str) :
  visible (join [SPACE] chunks) = visible (concat chunks).
Proof.
  induction chunks as [|c chunks IH]; [done|].
  destruct chunks as [|c' chunks].
  - simpl. by rewrite app_nil_r.
  - change (join [SPACE] (c :: c' :: chunks))
      with (c ++ SPACE :: join [SPACE] (c' :: chunks)).
    rewrite concat_cons, !visible_app, visible_space, IH by done. done.
Qed.

Lemma visible_clean_up text : visible (clean_up text) = visible text.
Proof.
  unfold clean_up.
  change (txt " ") with [SPACE].
  by rewrite visible_join, concat_nonempty, visible_chunks, visible_splitlines.
Qed.

Lemma spaced_once_lookup (s : str) :
  spaced_once s = true →
  ∀ i, ¬ (s !! i = Some SPACE ∧ s !! S i = Some SPACE).
Proof.
  induction s as [|c s IH]; intros Hs i [H1 H2]; [done|].
  destruct s as [|c' s]; [by destruct i|].
  change (spaced_once (c :: c' :: s))
    with (negb ((c =? SPACE)%N && (c' =? SPACE)%N) && spaced_once (c' :: s)) in Hs.
  apply andb_prop in Hs as [Hcc Hs]. apply negb_true_iff in Hcc.
  destruct i as [|i].
  - simpl in H1, H2. injection H1 as ->. injection H2 as ->. done.
  - by apply (IH Hs i).
Qed.

(** *** Where the characters of the output come from *)

Lemma strip_elem s c : c ∈ strip s → c ∈ s.
Proof.
  destruct (strip_middle s) as [t1 [t2 Hs]]. intros Hc.
  rewrite Hs, !elem_of_app. tauto.
Qed.

Lemma splitlines_from_elem n : ∀ s cur line c,
  (length s ≤ n)%nat →
  line ∈ splitlines_from cur s → c ∈ line → c ∈ cur ++ s.
Proof.
  induction n as [|n IH]; intros [|a s] cur line c Hn Hline Hc;
    simpl in Hn; try lia.
  - destruct cur; simpl in Hline; [by apply elem_of_nil in Hline|].
    apply list_elem_of_singleton in Hline as ->. by rewrite app_nil_r.
  - destruct cur; simpl in Hline; [by apply elem_of_nil in Hline|].
    apply list_elem_of_singleton in Hline as ->. by rewrite app_nil_r.
  - cbn [splitlines_from] in Hline. destruct (is_linebreak a).
    + apply elem_of_cons in Hline as [->|Hline].
      { apply elem_of_app. by left. }
      apply elem_of_app. right. apply elem_of_cons. right.
      destruct s as [|a' s]; [by apply elem_of_nil in Hline|].
      destruct ((a =? CR)%N && (a' =? LF)%N).
      * apply elem_of_cons. right.
        apply (IH s [] line c); [simpl in *; lia | done | done].
      * apply (IH (a' :: s) [] line c); [simpl in *; lia | done | done].
    + rewrite (assoc_L (++) cur [a] s : cur ++ a :: s = (cur ++ [a]) ++ s).
      apply (IH s (cur ++ [a]) line c); [lia | done | done].
Qed.

Lemma split_from_elem n : ∀ s cur piece c,
  (length s ≤ n)%nat →
  piece ∈ split_from cur s → c ∈ piece → c ∈ cur ++ s.
Proof.
  induction n as [|n IH]; intros [|a s] cur piece c Hn Hpiece Hc;
    simpl in Hn; try lia.
  - apply list_elem_of_singleton in Hpiece as ->. by rewrite app_nil_r.
  - apply list_elem_of_singleton in Hpiece as ->. by rewrite app_nil_r.
  - destruct s as [|a' s].
    { by apply list_elem_of_singleton in Hpiece as ->. }
    change (split_from cur (a :: a' :: s))
      with (if (a =? SPACE)%N && (a' =? SPACE)%N
            then cur :: split_from [] s
            else split_from (cur ++ [a]) (a' :: s)) in Hpiece.
    destruct ((a =? SPACE)%N && (a' =? SPACE)%N).
    + apply elem_of_cons in Hpiece as [->|Hpiece].
      { apply elem_of_app. by left. }
      apply elem_of_app. right. do 2 (apply elem_of_cons; right).
      apply (IH s [] piece c); [simpl in *; lia | done | done].
    + rewrite (assoc_L (++) cur [a] (a' :: s)
               : cur ++ a :: a' :: s = (cur ++ [a]) ++ a' :: s).
      apply (IH (a' :: s) (cur ++ [a]) piece c); [simpl in *; lia | done | done].
Qed.

Lemma join_space_elem (chunks : list str) c :
  c ∈ join [SPACE] chunks →
  c = SPACE ∨ ∃ chunk, chunk ∈ chunks ∧ c ∈ chunk.
Proof.
  induction chunks as [|p chunks IH]; [by intros ?%elem_of_nil|].
  destruct chunks as [|q chunks].
  - intros Hc. right. exists p. split; [apply list_elem_of_here | done].
  - change (join [SPACE] (p :: q :: chunks))
      with (p ++ SPACE :: join [SPACE] (q :: chunks)).
    rewrite elem_of_app, elem_of_cons. intros [Hc|[->|Hc]].
    + right. exists p. split; [apply list_elem_of_here | done].
    + by left.
    + destruct (IH Hc) as [->|[chunk [Hin Hcc]]]; [by left|].
      right. exists chunk. split; [by apply list_elem_of_further | done].
Qed.

Lemma clean_up_elem text c : c ∈ clean_up text → c = SPACE ∨ c ∈ text.
Proof.
  unfold clean_up. change (txt " ") with [SPACE]. intros Hc.
  apply join_space_elem in Hc as [->|[chunk [Hchunk Hc]]]; [by left|].
  right.
  apply list_elem_of_filter in Hchunk as [_ Hchunk].
  apply list_elem_of_bind in Hchunk as [line [Hchunk Hline]].
  apply list_elem_of_fmap in Hline as [raw [-> Hraw]].
  apply list_elem_of_fmap in Hchunk as [piece [-> Hpiece]].
  apply strip_elem in Hc.
  apply (split_from_elem _ _ [] piece c (le_n _)) in Hpiece; [|done].
  apply strip_elem in Hpiece.
  by apply (splitlines_from_elem _ _ [] raw c (le_n _)) in Hraw.
Qed.

(** *** The length of the output *)

(** The characters of a list of strings, one more for each string. *)
Definition weight (l : list (list char)) : nat :=
  (length (concat l) + length l)%nat.

Lemma weight_cons p l : weight (p :: l) = (length p + 1 + weight l)%nat.
Proof. unfold weight. rewrite concat_cons, length_app. simpl. lia. Qed.

Lemma weight_app l1 l2 : weight (l1 ++ l2) = (weight l1 + weight l2)%nat.
Proof. unfold weight. rewrite concat_app, !length_app. lia. Qed.

Lemma length_strip s : (length (strip s) ≤ length s)%nat.
Proof.
  destruct (strip_middle s) as [t1 [t2 Hs]].
  rewrite Hs at 2. rewrite !length_app. lia.
Qed.

Lemma weight_splitlines_from n : ∀ s cur,
  (length s ≤ n)%nat →
  (weight (splitlines_from cur s) ≤ length cur + length s + 1)%nat.
Proof.
  induction n as [|n IH]; intros [|a s] cur Hn; simpl in Hn; try lia.
  - destruct cur; simpl; [unfold weight; simpl; lia|].
    rewrite weight_cons. unfold weight. simpl. lia.
  - destruct cur; simpl; [unfold weight; simpl; lia|].
    rewrite weight_cons. unfold weight. simpl. lia.
  - cbn [splitlines_from]. destruct (is_linebreak a).
    + rewrite weight_cons. destruct s as [|a' s].
      { unfold weight. simpl. lia. }
      destruct ((a =? CR)%N && (a' =? LF)%N).
      * pose proof (IH s [] ltac:(simpl in *; lia)). simpl in *. lia.
      * pose proof (IH (a' :: s) [] ltac:(simpl in *; lia)). simpl in *. lia.
    + pose proof (IH s (cur ++ [a]) ltac:(lia)) as Hw.
      rewrite length_app in Hw. simpl in *. lia.
Qed.

Lemma weight_split_from n : ∀ s cur,
  (length s ≤ n)%nat →
  (weight (split_from cur s) ≤ length cur + length s + 1)%nat.
Proof.
  induction n as [|n IH]; intros [|a s] cur Hn; simpl in Hn; try lia.
  - simpl. rewrite weight_cons. unfold weight. simpl. lia.
  - simpl. rewrite weight_cons. unfold weight. simpl. lia.
  - destruct s as [|a' s].
    { simpl. rewrite weight_cons, length_app. unfold weight. simpl. lia. }
    change (split_from cur (a :: a' :: s))
      with (if (a =? SPACE)%N && (a' =? SPACE)%N
            then cur :: split_from [] s
            else split_from (cur ++ [a]) (a' :: s)).
    destruct ((a =? SPACE)%N && (a' =? SPACE)%N).
    + rewrite weight_cons.
      pose proof (IH s [] ltac:(simpl in *; lia)). simpl in *. lia.
    + pose proof (IH (a' :: s) (cur ++ [a]) ltac:(simpl in *; lia)) as Hw.
      rewrite length_app in Hw. simpl in *. lia.
Qed.

Lemma weight_strip (l : list (list char)) :
  (weight (strip <$> l) ≤ weight l)%nat.
Proof.
  induction l as [|p l IH]; [done|].
  rewrite fmap_cons, !weight_cons. pose proof (length_strip p). lia.
Qed.

Lemma weight_chunks (lines : list (list char)) :
  (weight ((strip <$> lines)
             ≫= (fun line => strip <$> split_double_space line))
   ≤ weight lines)%nat.
Proof.
  induction lines as [|l lines IH]; [done|].
  rewrite fmap_cons, bind_cons, weight_app, weight_cons.
  pose proof (weight_strip (split_double_space (strip l))).
  pose proof (weight_split_from (length (strip l)) (strip l) [] (le_n _)).
  pose proof (length_strip l). unfold split_double_space in *. simpl in *. lia.
Qed.

Lemma weight_nonempty (chunks : list (list char)) :
  (weight (filter (fun chunk => chunk ≠ []) chunks) ≤ weight chunks)%nat.
Proof.
  induction chunks as [|c chunks IH]; [done|].
  destruct c as [|a c].
  - rewrite filter_cons_False by (by intros []). rewrite weight_cons. lia.
  - rewrite filter_cons_True by done. rewrite !weight_cons. lia.
Qed.

Lemma length_join_space (chunks : list (list char)) :
  (length (join [SPACE] chunks) + length (take 1 chunks) ≤ weight chunks)%nat.
Proof.
  induction chunks as [|p chunks IH]; [done|].
  destruct chunks as [|q chunks].
  - simpl. rewrite weight_cons. unfold weight. simpl. lia.
  - change (join [SPACE] (p :: q :: chunks))
      with (p ++ SPACE :: join [SPACE] (q :: chunks)).
    rewrite length_app, weight_cons. simpl in *. lia.
Qed.

Lemma length_clean_up (text : list char) :
  (length (clean_up text) ≤ length text)%nat.
Proof.
  unfold clean_up. change (txt " ") with [SPACE].
  set (lines := splitlines text).
  set (chunks := (strip <$> lines) ≫= _).
  pose proof (weight_splitlines_from (length text) text [] (le_n _)) as Hl.
  fold (splitlines text) in Hl. fold lines in Hl.
  change (length (@nil char)) with 0%nat in Hl.
  pose proof (weight_chunks lines) as Hc. fold chunks in Hc.
  set (kept := filter _ chunks).
  pose proof (weight_nonempty chunks) as Hf.
  change (weight kept ≤ weight chunks)%nat in Hf.
  pose proof (length_join_space kept) as Hj.
  destruct kept as [|c cs]; [simpl; lia|].
  change (length (take 1 (c :: cs))) with 1%nat in Hj. lia.
Qed.

(** X1: [clean_up] keeps every character that is not white space, in its
    place among the others, and every character of its output is either a
    character of the input or a space. *)
Theorem clean_up_keeps_text (text : str) :
  filter (fun c => isspace c = false) (clean_up text : list char)
  = filter (fun c => isspace c = false) (text : list char)
  ∧ ∀ c, c ∈ clean_up text → c = SPACE ∨ c ∈ text.
Proof.
  split.
  - apply visible_clean_up.
  - intros c. apply clean_up_elem.
Qed.

(** X2: the output of [clean_up] holds no line boundary, neither starts nor
    ends with white space, and has no two spaces in a row. *)
Theorem clean_up_output_shape (text : str) :
  (∀ c, c ∈ clean_up text → is_linebreak c = false)
  ∧ (∀ c, head (clean_up text) = Some c → isspace c = false)
  ∧ (∀ c, last (clean_up text) = Some c → isspace c = false)
  ∧ ∀ i, ¬ (clean_up text !! i = Some SPACE
            ∧ clean_up text !! S i = Some SPACE).
Proof.
  destruct (clean_up_clean text) as [[Hhead Hlast] [Hline Hsp]].
  split; [|split; [|split]]; try done.
  - intros c Hc. by apply (proj1 (Forall_forall _ _) Hline).
  - by apply spaced_once_lookup.
Qed.

(** X3: the output of [clean_up] is empty exactly when the input holds
    nothing but white space, and it is never longer than the input. *)
Theorem clean_up_empty_iff (text : str) :
  (clean_up text = [] ↔ Forall (fun c => isspace c = true) text)
  ∧ len (clean_up text) <= len text.
Proof.
  split; [split|].
  - intros Hempty. apply visible_nil_iff.
    by rewrite <- visible_clean_up, Hempty.
  - intros Hspace. apply visible_nil_iff in Hspace.
    rewrite <- visible_clean_up in Hspace.
    destruct (clean_up text) as [|c out] eqn:Hout; [done|].
    destruct (clean_up_clean text) as [[Hhead _] _]. rewrite Hout in Hhead.
    rewrite visible_keep in Hspace by (by apply Hhead). done.
  - pose proof (length_clean_up text). unfold len. lia.
Qed.

End CleanUpText.

(** ** More on the search client *)

Module SearchResults.
Import Search SearchClient.

Lemma omap_prefix {A B} (f : A → option B) (l1 l2 : list A) :
  l1 `prefix_of` l2 → omap f l1 `prefix_of` omap f l2.
Proof. intros [k ->]. rewrite omap_app. by eexists. Qed.

Lemma take_prefix_le {A} (l : list A) (n m : nat) :
  (n ≤ m)%nat → take n l `prefix_of` take m l.
Proof.
  intros Hnm. rewrite <- (Nat.min_l n m), <- take_take by done.
  apply prefix_take.
Qed.



(** X4: a larger limit only adds records at the end of the results, and a
    limit that reaches the number of fragments of the page already gives
    all the records there are. *)
Theorem extract_results_grows (page : list fragment) (limit limit' : Z) :
  0 <= limit <= limit' →
  (extract_results page limit `prefix_of` extract_results page limit')
  ∧ (len page <= limit →
     extract_results page limit' = extract_results page limit).
Proof.
  intros Hl. rewrite !extract_results_omap, !slice_to_nonneg by lia. split.
  - apply omap_prefix, take_prefix_le. lia.
  - intros Hall. unfold len in Hall. by rewrite !take_ge by lia.
Qed.

(** X5: [search_duckduckgo] does not check its limit. The limit 0 gives no
    record, and a negative limit leaves out that many fragments at the end
    of the page instead of failing. *)
Theorem extract_results_negative_limit (page : list fragment) (limit : Z) :
  limit < 0 →
  extract_results page 0 = []
  ∧ extract_results page limit
    = omap record_of (take (length page - Z.to_nat (- limit)) page).
Proof.
  intros Hneg. rewrite !extract_results_omap. split; [done|].
  unfold slice_to, len. destruct (Z.leb_spec 0 limit); [lia|].
  do 2 f_equal. lia.
Qed.


Section WithLibraries.
Context `{Libraries}.

(** X7: [search_duckduckgo] sends one request and never raises. A timeout
    gives the single record [{"error": "Request timed out"}]; any other
    exception of the request or of the parser, and a status outside 200 to
    299, give a single record whose only key is [error] and whose text
    starts with [Search failed: ]; a parsed page gives its records, none of
    which has an [error] key. *)
Theorem search_duckduckgo_never_raises net (query : str) (limit : Z) :
  ∃ out,
    run net (search_duckduckgo query limit)
    = (Returned out, [search_request query])
    ∧ (net (search_request query) = inl TimeoutException →
       out = [ {["error" := txt "Request timed out"]} ])
    ∧ (∀ d, net (search_request query) = inl (Exception d) →
            out = [ {["error" := txt "Search failed: " ++ d]} ])
    ∧ (∀ r, net (search_request query) = inr r →
            ¬ (200 <= status_code r <= 299) →
            out = [ {["error" := txt "Search failed: "
                                   ++ HTTPStatusError_str r]} ])
    ∧ (∀ r d, net (search_request query) = inr r →
              200 <= status_code r <= 299 →
              select_result_body (text r) = inl d →
              out = [ {["error" := txt "Search failed: " ++ d]} ])
    ∧ (∀ r page, net (search_request query) = inr r →
                 200 <= status_code r <= 299 →
                 select_result_body (text r) = inr page →
                 out = extract_results page limit
                 ∧ ∀ record, record ∈ out → record !! "error" = None).
Proof.
  eexists. split; [apply run_search_duckduckgo|].
  split; [|split; [|split; [|split]]].
  - by intros ->.
  - by intros d ->.
  - intros r -> Hst. unfold search_try, raise_for_status.
    destruct (Z.leb_spec 200 (status_code r)),
             (Z.leb_spec (status_code r) 299); simpl; (lia || done).
  - intros r d -> Hst Hd. unfold search_try, raise_for_status.
    destruct (Z.leb_spec 200 (status_code r)),
             (Z.leb_spec (status_code r) 299); simpl; try lia.
    by rewrite Hd.
  - intros r page -> Hst Hpage. unfold search_try, raise_for_status.
    destruct (Z.leb_spec 200 (status_code r)),
             (Z.leb_spec (status_code r) 299); simpl; try lia.
    rewrite Hpage. split; [done|]. intros record Hrec.
    apply extract_results_elem in Hrec as [f [_ Hf]].
    apply record_of_Some in Hf as [title [url [_ [_ ->]]]].
    by simplify_map_eq.
Qed.

End WithLibraries.

(** X4 at [sample_page] and the limits 1 and 3. *)
Lemma extract_results_grows_witness :
  (extract_results sample_page 1 `prefix_of` extract_results sample_page 3)
  ∧ (len sample_page <= 1 →
     extract_results sample_page 3 = extract_results sample_page 1).
Proof. apply extract_results_grows. lia. Defined.

(** X5 at [sample_page] and the limit -1: the titles are those of the
    first two fragments, of which one has no title element. *)
Lemma extract_results_negative_limit_witness :
  extract_results sample_page 0 = []
  ∧ titles (extract_results sample_page (-1))
    = [Some (txt "Rust Programming Language")].
Proof.
  destruct (extract_results_negative_limit sample_page (-1)) as [Hzero Hneg];
    [lia|].
  split; [exact Hzero|]. rewrite Hneg. vm_compute. reflexivity.
Defined.

End SearchResults.

(** ** More on the page fetcher *)

Module FetchUrl.
Import CleanUp CleanUpText Fetcher.

Lemma with_scheme_has_prefix url : has_http_prefix (with_scheme url).
Proof.
  unfold with_scheme.
  destruct (startswith url (txt "http://")) eqn:H1.
  { apply startswith_spec in H1 as [rest ->]. exists rest. by left. }
  destruct (startswith url (txt "https://")) eqn:H2.
  { apply startswith_spec in H2 as [rest ->]. exists rest. by right. }
  exists url. by right.
Qed.

Lemma limit_length_bound (text : str) : len (limit_length text) <= 10023.
Proof.
  destruct (Z.le_gt_cases (len text) 10000) as [Hshort|Hlong].
  - rewrite limit_length_short by done. lia.
  - destruct (limit_length_long text) as [_ [-> _]]; [lia|]. done.
Qed.

Lemma limit_length_idempotent (text : str) :
  limit_length (limit_length text) = limit_length text.
Proof.
  destruct (Z.le_gt_cases (len text) 10000) as [Hshort|Hlong].
  - rewrite (limit_length_short text) by done. by apply limit_length_short.
  - destruct (limit_length_long text) as [Hout [Hlen Hfirst]]; [lia|].
    destruct (limit_length_long (limit_length text)) as [-> _].
    + rewrite Hlen. by vm_compute.
    + by rewrite Hfirst, <- Hout.
Qed.

Section WithLibraries.
Context `{Libraries}.

(** X8: the request of [fetch_url] always goes to a url that starts with
    [http://] or [https://]; the empty url is requested as [https://]; and
    fetching the url a request went to is fetching the url it came from. *)
Theorem fetch_url_normalizes (url : str) :
  has_http_prefix (req_url (fetch_request url))
  ∧ req_url (fetch_request []) = txt "https://"
  ∧ with_scheme (with_scheme url) = with_scheme url
  ∧ fetch_url (with_scheme url) = fetch_url url.
Proof.
  pose proof (with_scheme_has_prefix url) as Hp.
  pose proof (with_scheme_prefixed _ Hp) as Hid.
  split; [done|]. split; [done|]. split; [done|].
  unfold fetch_url. by rewrite Hid.
Qed.

(** X9: a text that [fetch_url] extracts comes back at most 10,023
    characters long, and cutting it again changes nothing; a page whose
    extracted text is at most 10,000 characters long is never cut: the
    result is the cleaned text, no longer than the extracted one. *)
Theorem fetch_url_result_bounded net url (r : response) (raw : str) :
  net (fetch_request url) = inr r →
  raise_for_status r = inr tt →
  main_content_text (text r) = inr raw →
  ∃ out,
    run net (fetch_url url) = (Returned out, [fetch_request url])
    ∧ len out <= 10023
    ∧ limit_length out = out
    ∧ (len raw <= 10000 → out = clean_up raw ∧ len out <= len raw).
Proof.
  intros Hnet Hok Hraw. exists (limit_length (clean_up raw)).
  split; [|split; [|split]].
  - rewrite run_fetch_url, Hnet. unfold fetch_try. by rewrite Hok, Hraw.
  - apply limit_length_bound.
  - apply limit_length_idempotent.
  - intros Hshort. pose proof (length_clean_up raw) as Hle.
    rewrite limit_length_short by (unfold len in *; lia).
    split; [done|]. unfold len. lia.
Qed.

End WithLibraries.

(** X9 at a page of three words. *)
Lemma fetch_url_result_bounded_witness :
  ∃ out,
    run (ok_net (txt "  Rust   A language  "))
        (@fetch_url (fixture []) (txt "example.com"))
    = (Returned out, [fetch_request (txt "example.com")])
    ∧ len out <= 10023
    ∧ limit_length out = out
    ∧ (len (txt "  Rust   A language  ") <= 10000 →
       out = clean_up (txt "  Rust   A language  ")
       ∧ len out <= len (txt "  Rust   A language  ")).
Proof.
  apply (@fetch_url_result_bounded (fixture [])
           (ok_net (txt "  Rust   A language  ")) (txt "example.com")
           (Response 200 (txt "OK") (txt "  Rust   A language  "))
           (txt "  Rust   A language  ")); reflexivity.
Defined.

End FetchUrl.

(** ** More on the orchestrator and the two other tools *)

Module Outcomes.
Import Arguments Search CleanUpText.


Lemma checked_arguments_inr query limit q l :
  checked_arguments query limit = inr (q, l) →
  ∃ n, query = VStr q ∧ strip q ≠ [] ∧ as_int limit = Some n
       ∧ 1 <= n ∧ l = Z.min n 10.
Proof.
  unfold checked_arguments. destruct query as [s| | |]; simpl; try done.
  destruct (strip s) eqn:Hs; [done|].
  destruct (as_int limit) as [n|]; [|done].
  destruct (Z.ltb_spec n 1); [done|].
  intros [= <- <-]. exists n. by rewrite Hs.
Qed.



Lemma record_has_url page limit r :
  r ∈ extract_results page limit → is_Some (r !! "url").
Proof.
  intros [f [_ Hf]]%extract_results_elem.
  apply record_of_Some in Hf as [title [url [_ [_ ->]]]].
  exists (strip url). by simplify_map_eq.
Qed.

Lemma urls_exist (results : list (gmap string str)) :
  (∀ r, r ∈ results → is_Some (r !! "url")) →
  ∃ us, Forall2 (fun r u => r !! "url" = Some u) results us.
Proof.
  induction results as [|r results IH]; intros Hall.
  - exists []. constructor.
  - destruct (Hall r) as [u Hu]; [apply list_elem_of_here|].
    destruct IH as [us Hus].
    { intros r' Hr'. apply Hall. by apply list_elem_of_further. }
    exists (u :: us). by constructor.
Qed.

Lemma omap_record_of_none (page : list fragment) :
  Forall (fun f => ¬ complete f) page → omap record_of page = [].
Proof.
  induction 1 as [|f page Hf _ IH]; [done|]. csimpl. rewrite IH.
  unfold record_of. destruct (title_elem f) eqn:Ht, (url_elem f) eqn:Hu; try done.
  destruct Hf. unfold complete. rewrite Ht, Hu. split; by eexists.
Qed.

Section WithLibraries.
Context `{Libraries}.

(** What [fetch_url] returns for [url] on the network [net]. *)
Definition fetch_outcome (net : request → exception + response) (url : str)
  : str :=
  match fetch_try (net (fetch_request url)) with
  | inr text => text
  | inl e => fetch_except e
  end.

Lemma run_gather_fetch_url net (us : list str) :
  run net (gather (fetch_url <$> us))
  = (Returned (fetch_outcome net <$> us), fetch_request <$> us).
Proof.
  induction us as [|u us IH]; [done|].
  rewrite fmap_cons. cbn [gather].
  rewrite run_bind, Fetcher.run_fetch_url, run_bind, IH.
  cbn [run]. by rewrite app_nil_r.
Qed.

Lemma fetch_tasks_of_urls (results : list (gmap string str)) (us : list str) :
  Forall2 (fun r u => r !! "url" = Some u) results us →
  fetch_tasks_of results = inr (fetch_url <$> us).
Proof.
  induction 1 as [|r u results us Hu _ IH]; [done|].
  cbn [fetch_tasks_of]. by rewrite Hu, IH.
Qed.

Lemma assign_summaries_merge (g : str → str)
    (results : list (gmap string str)) (us : list str) :
  Forall2 (fun r u => r !! "url" = Some u) results us →
  Forall2 (fun r o => ∃ u, r !! "url" = Some u ∧ o = <["summary" := g u]> r)
          results (assign_summaries results (g <$> us)).
Proof.
  induction 1 as [|r u results us Hu _ IH]; [constructor|].
  rewrite fmap_cons. cbn [assign_summaries]. constructor; [by eauto | done].
Qed.

Lemma run_fetch_summaries net query (results : list (gmap string str))
    (us : list str) :
  results ≠ [] →
  Forall2 (fun r u => r !! "url" = Some u) results us →
  run net (fetch_summaries query results)
  = (Returned (assign_summaries results (fetch_outcome net <$> us)),
     fetch_request <$> us).
Proof.
  intros Hne Hus. unfold fetch_summaries.
  destruct results as [|r results]; [done|].
  rewrite (fetch_tasks_of_urls _ us Hus), run_bind, run_gather_fetch_url.
  simpl. by rewrite app_nil_r.
Qed.

Lemma run_search_and_fetch_valid net q limit n :
  strip q ≠ [] → as_int limit = Some n → 1 <= n →
  run net (search_and_fetch (VStr q) limit)
  = match search_try (Z.min n 10) (net (search_request q)) with
    | inl e => (Raised (KeyError "url"), [search_request q])
    | inr results =>
        let '(r, sent) := run net (fetch_summaries q results) in
        (r, search_request q :: sent)
    end.
Proof.
  intros Hq Hl Hn. unfold search_and_fetch.
  rewrite (checked_arguments_valid q limit n) by done.
  rewrite run_bind, run_search_duckduckgo.
  destruct (search_try _ _) as [e|results]; [|done].
  by rewrite Orchestrator.fetch_summaries_error_marker.
Qed.

Lemma length_assign_summaries (results : list (gmap string str))
    (summaries : list str) :
  length (assign_summaries results summaries) = length results.
Proof.
  revert summaries. induction results as [|r results IH]; intros [|s ss];
    simpl; try done. by rewrite IH.
Qed.

(** When the [try] block of the search returns, the rest of
    [search_and_fetch] returns too: at least 1 record, and as many fetch
    requests as the search has records. *)
Lemma run_fetch_summaries_found net query limit got
    (results : list (gmap string str)) :
  0 <= limit →
  search_try limit got = inr results →
  ∃ out sent,
    run net (fetch_summaries query results) = (Returned out, sent)
    ∧ (1 ≤ length out)%nat
    ∧ (Z.of_nat (length out) <= Z.max 1 limit)
    ∧ (Z.of_nat (length sent) <= limit).
Proof.
  intros Hlimit Htry.
  apply search_try_inr in Htry as [resp [page [_ [_ ->]]]].
  pose proof (extract_results_length page limit Hlimit) as Hlen.
  unfold len in Hlen.
  destruct (extract_results page limit) as [|r results] eqn:Hres.
  { exists (no_results query), []. simpl in *. repeat split; lia. }
  destruct (urls_exist (r :: results)) as [us Hus].
  { intros r' Hr'. apply (record_has_url page limit). by rewrite Hres. }
  pose proof (Forall2_length _ _ _ Hus) as Hlus.
  eexists _, _. split; [by apply (run_fetch_summaries _ _ _ us)|].
  rewrite length_assign_summaries, length_fmap. simpl in *. lia.
Qed.

(** X10: when the arguments are valid and the search finds records,
    [search_and_fetch] returns one record for each of them, in the same
    order: the record of the search with, under [summary], what [fetch_url]
    returns for the url of that record. It sends the search request and
    then one fetch request for each record, in the order of the records. *)
Theorem search_and_fetch_merges net (q : str) (limit : pyval) (n : Z)
    (results : list (gmap string str)) :
  strip q ≠ [] → as_int limit = Some n → 1 <= n →
  search_try (Z.min n 10) (net (search_request q)) = inr results →
  results ≠ [] →
  ∃ us out,
    Forall2 (fun r u => r !! "url" = Some u) results us
    ∧ run net (search_and_fetch (VStr q) limit)
      = (Returned out, search_request q :: (fetch_request <$> us))
    ∧ Forall2 (fun r o =>
                 ∃ u s, r !! "url" = Some u
                        ∧ fst (run net (fetch_url u)) = Returned s
                        ∧ o = <["summary" := s]> r)
              results out.
Proof.
  intros Hq Hl Hn Htry Hne.
  destruct (urls_exist results) as [us Hus].
  { apply search_try_inr in Htry as [resp [page [_ [_ ->]]]].
    intros r. apply record_has_url. }
  exists us, (assign_summaries results (fetch_outcome net <$> us)).
  split; [done|]. split.
  - rewrite (run_search_and_fetch_valid net q limit n), Htry by done.
    by rewrite (run_fetch_summaries net q results us).
  - eapply Forall2_impl; [by apply (assign_summaries_merge (fetch_outcome net))|].
    intros r o [u [Hu ->]]. exists u, (fetch_outcome net u).
    split; [done|]. split; [|done]. by rewrite Fetcher.run_fetch_url.
Qed.

(** X11: whatever its arguments and whatever the network answers,
    [search_and_fetch] sends at most 11 requests, and a list it returns has
    at least 1 and at most 10 records. *)
Theorem search_and_fetch_bounded net (query limit : pyval) :
  (length (snd (run net (search_and_fetch query limit))) ≤ 11)%nat
  ∧ ∀ out, fst (run net (search_and_fetch query limit)) = Returned out →
           (1 ≤ length out ≤ 10)%nat.
Proof.
  destruct (checked_arguments query limit) as [e|[q l]] eqn:Hargs.
  { unfold search_and_fetch. rewrite Hargs. simpl. split; [lia | done]. }
  apply checked_arguments_inr in Hargs as [n [-> [Hq [Hl [Hn ->]]]]].
  rewrite (run_search_and_fetch_valid net q limit n) by done.
  destruct (search_try _ _) as [e|results] eqn:Htry.
  { simpl. split; [lia | done]. }
  destruct (run_fetch_summaries_found net q (Z.min n 10) _ _ ltac:(lia) Htry)
    as [out [sent [-> [Hone [Hout Hsent]]]]].
  simpl. split; [lia|]. intros out' [= <-]. lia.
Qed.

(** X12: with valid arguments, [search_and_fetch] raises exactly when the
    search step fails, and what it raises then is [KeyError] for the key
    [url]; when the search step succeeds it returns. *)
Theorem search_and_fetch_raises_iff net (q : str) (limit : pyval) (n : Z) :
  strip q ≠ [] → as_int limit = Some n → 1 <= n →
  ((∃ e, fst (run net (search_and_fetch (VStr q) limit)) = Raised e)
   ↔ ∃ exc, search_try (Z.min n 10) (net (search_request q)) = inl exc)
  ∧ ∀ e, fst (run net (search_and_fetch (VStr q) limit)) = Raised e →
         e = KeyError "url".
Proof.
  intros Hq Hl Hn.
  rewrite (run_search_and_fetch_valid net q limit n) by done.
  destruct (search_try _ _) as [exc|results] eqn:Htry.
  - simpl. split; [split; eauto|]. by intros e [= <-].
  - destruct (run_fetch_summaries_found net q (Z.min n 10) _ _ ltac:(lia) Htry)
      as [out [sent [-> _]]].
    simpl. split; [|done]. split; [by intros [e ?] | by intros [exc ?]].
Qed.

(** X13: with valid arguments, when none of the fragments that the limit
    lets through has both a title and a url element, [search_and_fetch] and
    [search] send the search request only and return the single record
    [{"message": "No results found for '<query>'"}], with the query as it
    was given. *)
Theorem no_results_message net (q : str) (limit : pyval) (n : Z)
    (r : response) (page : list fragment) :
  strip q ≠ [] → as_int limit = Some n → 1 <= n →
  net (search_request q) = inr r →
  200 <= status_code r <= 299 →
  select_result_body (text r) = inr page →
  Forall (fun f => ¬ complete f) (slice_to (Z.min n 10) page) →
  let message : list (gmap string str) :=
    [ {["message" := txt "No results found for '" ++ q ++ txt "'"]} ] in
  run net (search_and_fetch (VStr q) limit)
  = (Returned message, [search_request q])
  ∧ run net (search (VStr q) limit) = (Returned message, [search_request q]).
Proof.
  intros Hq Hl Hn Hnet Hst Hpage Hnone message.
  assert (search_try (Z.min n 10) (net (search_request q)) = inr []) as Htry.
  { rewrite Hnet. unfold search_try, raise_for_status.
    destruct (Z.leb_spec 200 (status_code r)),
             (Z.leb_spec (status_code r) 299); simpl; try lia.
    rewrite Hpage, extract_results_omap. by rewrite omap_record_of_none. }
  split.
  - by rewrite (run_search_and_fetch_valid net q limit n), Htry.
  - unfold search. rewrite (checked_arguments_valid q limit n) by done.
    by rewrite run_bind, run_search_duckduckgo, Htry.
Qed.

(** X14: with valid arguments, [search] never raises and sends the search
    request only. It returns what [search_duckduckgo] returns for the limit
    capped at 10, error marker included, except that an empty list becomes
    the no-results message. *)
Theorem search_returns_search_results net (q : str) (limit : pyval) (n : Z) :
  strip q ≠ [] → as_int limit = Some n → 1 <= n →
  ∃ found,
    run net (search_duckduckgo q (Z.min n 10))
    = (Returned found, [search_request q])
    ∧ run net (search (VStr q) limit)
      = (Returned match found with
                  | [] => no_results q
                  | _ :: _ => found
                  end,
         [search_request q]).
Proof.
  intros Hq Hl Hn. eexists. split; [apply run_search_duckduckgo|].
  unfold search. rewrite (checked_arguments_valid q limit n) by done.
  rewrite run_bind, run_search_duckduckgo.
  by destruct (search_try _ _) as [[]|[|r results]].
Qed.



End WithLibraries.

Lemma rust_query_not_blank : strip (txt "rust programming") ≠ [].
Proof. vm_compute. discriminate. Qed.

(** X10 at [sample_page] on [sample_net]: two records, the second with the
    timeout text as its summary. *)
Lemma search_and_fetch_merges_witness :
  let results := extract_results SearchClient.sample_page 3 in
  ∃ us out,
    Forall2 (fun r u => r !! "url" = Some u) results us
    ∧ run Scenario.sample_net
        (@search_and_fetch (fixture SearchClient.sample_page)
           (VStr (txt "rust programming")) (VInt 3))
      = (Returned out,
         search_request (txt "rust programming") :: (fetch_request <$> us))
    ∧ Forall2 (fun r o =>
                 ∃ u s, r !! "url" = Some u
                        ∧ fst (run Scenario.sample_net
                                 (@fetch_url (fixture SearchClient.sample_page) u))
                          = Returned s
                        ∧ o = <["summary" := s]> r)
              results out.
Proof.
  apply (@search_and_fetch_merges (fixture SearchClient.sample_page)
           Scenario.sample_net (txt "rust programming") (VInt 3) 3).
  - exact rust_query_not_blank.
  - reflexivity.
  - lia.
  - reflexivity.
  - intros Hnil. apply (f_equal length) in Hnil.
    vm_compute in Hnil. discriminate Hnil.
Defined.

(** X12 on a network where every request times out. *)
Lemma search_and_fetch_raises_iff_witness :
  ((∃ e, fst (run timeout_net
                (@search_and_fetch (fixture [])
                   (VStr (txt "rust programming")) (VInt 3)))
         = Raised e)
   ↔ ∃ exc, @search_try (fixture []) (Z.min 3 10)
              (timeout_net (search_request (txt "rust programming")))
            = inl exc)
  ∧ ∀ e, fst (run timeout_net
                (@search_and_fetch (fixture [])
                   (VStr (txt "rust programming")) (VInt 3)))
         = Raised e →
         e = KeyError "url".
Proof.
  apply (@search_and_fetch_raises_iff (fixture []) timeout_net
           (txt "rust programming") (VInt 3) 3).
  - exact rust_query_not_blank.
  - reflexivity.
  - lia.
Defined.

(** X13 at a page whose only fragment has no title element. *)
Lemma no_results_message_witness :
  let page := [Fragment None (Some (txt "doc.rust-lang.org")) None] in
  let message : list (gmap string str) :=
    [ {["message" := txt "No results found for 'rust programming'"]} ] in
  run (ok_net []) (@search_and_fetch (fixture page)
                     (VStr (txt "rust programming")) (VInt 3))
  = (Returned message, [search_request (txt "rust programming")])
  ∧ run (ok_net []) (@search (fixture page)
                       (VStr (txt "rust programming")) (VInt 3))
    = (Returned message, [search_request (txt "rust programming")]).
Proof.
  intros page message.
  apply (@no_results_message (fixture page) (ok_net [])
           (txt "rust programming") (VInt 3) 3
           (Response 200 (txt "OK") []) page).
  - exact rust_query_not_blank.
  - reflexivity.
  - lia.
  - reflexivity.
  - simpl. lia.
  - reflexivity.
  - repeat constructor. intros [[title Htitle] _]. discriminate Htitle.
Defined.

(** X14 on a network where every request times out: [search] returns the
    error marker. *)
Lemma search_returns_search_results_witness :
  ∃ found,
    run timeout_net (@search_duckduckgo (fixture [])
                       (txt "rust programming") (Z.min 3 10))
    = (Returned found, [search_request (txt "rust programming")])
    ∧ run timeout_net (@search (fixture [])
                         (VStr (txt "rust programming")) (VInt 3))
      = (Returned match found with
                  | [] => no_results (txt "rust programming")
                  | _ :: _ => found
                  end,
         [search_request (txt "rust programming")]).
Proof.
  apply (@search_returns_search_results (fixture []) timeout_net
           (txt "rust programming") (VInt 3) 3).
  - exact rust_query_not_blank.
  - reflexivity.
  - lia.
Defined.

End Outcomes.
